(** * supsm::fixed -- a shallow embedding of [fixed.h]

    The header defines one class template,
    [fixed<T, scale_bits, fast_multdiv, multdiv_cast_type>], whose only
    field is [raw_data : T].  Integers of a C++ type are modelled as
    mathematical integers ([Z]) together with the conversion [cast] that
    brings a value into the range of the type (two's complement for the
    signed types, as C++20 fixes it).  Every place where the source stores
    a value into a variable of an integer type is a [cast] in the model.

    Modelling conventions, which the statements below rely on:
    - signed arithmetic whose exact result leaves the type is modelled by
      its two's complement wrap-around;
    - a shift is the mathematical shift ([Z.shiftl], [Z.shiftr]) followed
      by the conversion to the type of the variable that receives it.  This
      is what C++ computes for every count below the width of the
      (promoted) left operand; C++ leaves a larger count undefined, and
      [shift_defined] states the bound where a statement depends on it;
    - [/] and [%] are [Z.quot] and [Z.rem].  C++ leaves them undefined for
      a zero divisor and for a quotient that the type of the operation
      cannot hold; [div_defined] excludes both where a statement depends on
      it. *)

From Stdlib Require Import ZArith Lia Bool.

Local Open Scope Z_scope.

(** ** Integer types *)

Inductive int_width : Type := W8 | W16 | W32 | W64.

Record int_type : Type := IntType { width : int_width; is_signed : bool }.

Definition int8_t : int_type := IntType W8 true.
Definition int16_t : int_type := IntType W16 true.
Definition int32_t : int_type := IntType W32 true.
Definition int64_t : int_type := IntType W64 true.
Definition uint8_t : int_type := IntType W8 false.
Definition uint16_t : int_type := IntType W16 false.
Definition uint32_t : int_type := IntType W32 false.
Definition uint64_t : int_type := IntType W64 false.

Definition width_bits (w : int_width) : Z :=
  match w with W8 => 8 | W16 => 16 | W32 => 32 | W64 => 64 end.

(** [std::numeric_limits<std::make_unsigned_t<T>>::digits] *)
Definition bits (T : int_type) : Z := width_bits (width T).

(** [std::make_unsigned_t<T>] *)
Definition make_unsigned (T : int_type) : int_type := IntType (width T) false.

(** [std::numeric_limits<T>::min()] and [max()] *)
Definition numeric_min (T : int_type) : Z :=
  if is_signed T then - 2 ^ (bits T - 1) else 0.

Definition numeric_max (T : int_type) : Z :=
  if is_signed T then 2 ^ (bits T - 1) - 1 else 2 ^ bits T - 1.

Definition in_range (T : int_type) (z : Z) : Prop :=
  numeric_min T <= z <= numeric_max T.

(** [static_cast<T>(z)], and every implicit conversion to [T]: the value of
    [T] congruent to [z] modulo [2 ^ bits T]. *)
Definition cast (T : int_type) (z : Z) : Z :=
  if is_signed T
  then (z + 2 ^ (bits T - 1)) mod 2 ^ bits T - 2 ^ (bits T - 1)
  else z mod 2 ^ bits T.

(** Integral promotion: a value of a type narrower than [int] takes part
    in arithmetic as an [int] (32 bits). *)
Definition promote (T : int_type) : int_type :=
  match width T with
  | W8 | W16 => int32_t
  | _ => T
  end.

Definition width_leb (a b : int_width) : bool := width_bits a <=? width_bits b.

(** The usual arithmetic conversions, on the promoted operands. *)
Definition common_type (A B : int_type) : int_type :=
  let A' := promote A in
  let B' := promote B in
  if Bool.eqb (is_signed A') (is_signed B')
  then (if width_leb (width A') (width B') then B' else A')
  else
    let U := if is_signed A' then B' else A' in
    let G := if is_signed A' then A' else B' in
    if width_leb (width G) (width U) then U else G.

(** [std::size_t] subtraction (64 bits, unsigned). *)
Definition size_sub (a b : Z) : Z := (a - b) mod 2 ^ 64.

(** [x << k] and [x >> k] with [x] of type [A] are defined when the count
    is not negative and below the width of the promoted [A]. *)
Definition shift_defined (A : int_type) (k : Z) : Prop :=
  0 <= k < bits (promote A).

(** [a / b] and [a % b], computed in the type [A], are defined when [b] is
    not zero and the quotient is representable in [A]. *)
Definition div_defined (A : int_type) (a b : Z) : Prop :=
  b <> 0 /\ in_range A (Z.quot a b).

(** ** The class template *)

Record config : Type := Config {
  T : int_type;                    (* internal type *)
  scale_bits : Z;                  (* std::size_t scale_bits *)
  fast_multdiv : bool;
  multdiv_cast_type : int_type
}.

(** A value of [fixed<...>]; the configuration is part of the type, as in
    the source. *)
Record fixed (c : config) : Type := Fixed { raw_data : Z }.

Arguments Fixed {c} _.
Arguments raw_data {c} _.

(** An operand of a templated operator: a value of some integral type, or a
    value of the class itself. *)
Inductive operand (c : config) : Type :=
| IntArg (K : int_type) (k : Z)
| FixedArg (y : fixed c).

Arguments IntArg {c} _ _.
Arguments FixedArg {c} _.

(** [detail::integer_or_T<A, T>]: [std::integral<A> || std::same_as<A, T>],
    where [T] is the internal type.  The class is not an integral type and
    is not its own internal type. *)
Definition integer_or_T {c : config} (o : operand c) : bool :=
  match o with
  | IntArg _ _ => true
  | FixedArg _ => false
  end.

Section Fixed.

Variable c : config.

Let UT : int_type := make_unsigned (T c).
Let bits_num : Z := bits (T c).
Let low_bits_num : Z := bits (T c) / 2.

(** *** Construction and conversion (lines 59-75) *)

Definition fixed_default : fixed c := Fixed 0.

(** [fixed(int_val) : raw_data(T(int_val) << scale_bits)]; the shift is
    defined for [shift_defined T scale_bits]. *)
Definition from_integer (int_val : Z) : fixed c :=
  Fixed (cast (T c) (Z.shiftl (cast (T c) int_val) (scale_bits c))).

(** [fixed(int_val, scale) : raw_data(T(int_val) << (scale_bits - scale))];
    the shift is defined for [shift_defined T (scale_bits - scale)]. *)
Definition from_scaled (int_val scale : Z) : fixed c :=
  Fixed (cast (T c)
           (Z.shiftl (cast (T c) int_val) (size_sub (scale_bits c) scale))).

(** [operator T2() const { return T2(raw_data) >> scale_bits; }]; the
    shift is defined for [shift_defined T2 scale_bits]. *)
Definition to_integer (T2 : int_type) (x : fixed c) : Z :=
  cast T2 (Z.shiftr (cast T2 (raw_data x)) (scale_bits c)).

(** *** Additive and remainder assignments (lines 100-101, 235-239) *)

Definition add_assign (x other : fixed c) : fixed c :=
  Fixed (cast (T c) (raw_data x + raw_data other)).

Definition sub_assign (x other : fixed c) : fixed c :=
  Fixed (cast (T c) (raw_data x - raw_data other)).

(** [raw_data %= other.raw_data]; [%] truncates toward zero, and is
    defined for [div_defined (promote T) raw_data other.raw_data]. *)
Definition rem_assign (x other : fixed c) : fixed c :=
  Fixed (cast (T c) (Z.rem (raw_data x) (raw_data other))).

(** *** Multiplication (lines 105-179) *)

(** The lambdas [high_bits] and [low_bits]. *)
Definition high_bits (x : Z) : Z := Z.shiftr (cast UT x) low_bits_num.

Definition low_bits (x : Z) : Z :=
  Z.land (cast UT x) (cast UT (cast UT (Z.shiftl 1 low_bits_num) - 1)).

(** Lines 116-126 (and 186-196): the operand as [UT], made positive when
    [T] is signed and the top bit is set; the flag is [neg_a]. *)
Definition neg_flag (raw : Z) : bool :=
  negb (Z.shiftr (cast UT raw) (bits_num - 1) =? 0).

Definition magnitude (raw : Z) : Z :=
  let a := cast UT raw in
  if is_signed (T c)
  then (if neg_flag raw then cast UT (- a) else a)
  else a.

(** The partial sums of the long multiplication, before they are stored
    into a [UT] variable. *)
Definition L1_L2_sum (a b : Z) : Z := low_bits a * low_bits b.
Definition L1_L2 (a b : Z) : Z := cast UT (L1_L2_sum a b).
Definition result_0 (a b : Z) : Z := low_bits (L1_L2 a b).

Definition H1_L2_C_sum (a b : Z) : Z :=
  high_bits a * low_bits b + high_bits (L1_L2 a b).
Definition H1_L2_C (a b : Z) : Z := cast UT (H1_L2_C_sum a b).

Definition L1_H2_C_sum (a b : Z) : Z :=
  low_bits a * high_bits b + low_bits (H1_L2_C a b).
Definition L1_H2_C (a b : Z) : Z := cast UT (L1_H2_C_sum a b).
Definition result_1 (a b : Z) : Z := low_bits (L1_H2_C a b).

Definition H1_H2_C_sum (a b : Z) : Z :=
  high_bits a * high_bits b + high_bits (H1_L2_C a b) + high_bits (L1_H2_C a b).
Definition H1_H2_C (a b : Z) : Z := cast UT (H1_H2_C_sum a b).
Definition result_2 (a b : Z) : Z := low_bits (H1_H2_C a b).
Definition result_3 (a b : Z) : Z := high_bits (H1_H2_C a b).

Definition result_low (a b : Z) : Z :=
  cast UT (Z.lor (result_0 a b) (Z.shiftl (result_1 a b) low_bits_num)).

Definition result_high (a b : Z) : Z :=
  cast UT (Z.lor (result_2 a b) (Z.shiftl (result_3 a b) low_bits_num)).

(** Line 157: the middle [bits_num] bits of the double-width product.  The
    shifts by [scale_bits] are defined for [shift_defined UT scale_bits];
    the count [bits_num - scale_bits] reaches the width of a 32- or 64-bit
    [UT] at [scale_bits = 0] only, where the shifted operand is [0]. *)
Definition mul_extract (hi lo : Z) : Z :=
  cast (T c)
    (Z.lor
       (Z.shiftl
          (Z.land hi (cast UT (cast UT (Z.shiftl 1 (scale_bits c)) - 1)))
          (bits_num - scale_bits c))
       (Z.shiftr lo (scale_bits c))).

Definition mul_safe (x other : Z) : Z :=
  let a := magnitude x in
  let b := magnitude other in
  let r := mul_extract (result_high a b) (result_low a b) in
  if is_signed (T c)
  then (if xorb (neg_flag x) (neg_flag other) then cast (T c) (- r) else r)
  else r.

(** Line 168: the operands cast to [multdiv_cast_type], multiplied (in the
    promoted type), shifted right; the shift is defined for
    [shift_defined multdiv_cast_type scale_bits]. *)
Definition mul_fast (x other : Z) : Z :=
  let W := multdiv_cast_type c in
  cast (T c)
    (Z.shiftr (cast (promote W) (cast W x * cast W other)) (scale_bits c)).

(** [operator*=(const fixed&)] *)
Definition mul_assign (x other : fixed c) : fixed c :=
  Fixed (if fast_multdiv c
         then mul_fast (raw_data x) (raw_data other)
         else mul_safe (raw_data x) (raw_data other)).

(** [operator*=(integer)]: [raw_data *= other], computed in the common type
    of [T] and the type of [other]. *)
Definition mul_assign_int (x : fixed c) (K : int_type) (k : Z) : fixed c :=
  let C := common_type (T c) K in
  Fixed (cast (T c) (cast C (cast C (raw_data x) * cast C k))).

(** *** Division (lines 180-232) *)

(** One round of the loop at lines 200-211. *)
Definition div_step (b : Z) (st : Z * Z) : Z * Z :=
  let '(div_high, div_low) := st in
  let t := cast UT (- Z.shiftr div_high (bits_num - 1)) in
  let div_high :=
    cast UT (Z.lor (Z.shiftl div_high 1) (Z.shiftr div_low (bits_num - 1))) in
  let div_low := cast UT (Z.shiftl div_low 1) in
  if b <=? Z.lor div_high t
  then (cast UT (div_high - b), cast UT (div_low + 1))
  else (div_high, div_low).

Fixpoint div_loop (rounds : nat) (b : Z) (st : Z * Z) : Z * Z :=
  match rounds with
  | O => st
  | S k => div_loop k b (div_step b st)
  end.

(** Lines 186-219.  The shift of line 198 is defined for
    [shift_defined UT scale_bits]; line 197 guards [scale_bits = 0]. *)
Definition div_safe (x other : Z) : Z :=
  let a := magnitude x in
  let b := magnitude other in
  let div_high :=
    if scale_bits c =? 0 then 0 else Z.shiftr a (bits_num - scale_bits c) in
  let div_low := cast UT (Z.shiftl a (scale_bits c)) in
  let div_low := snd (div_loop (Z.to_nat bits_num) b (div_high, div_low)) in
  let div_low :=
    if is_signed (T c) && xorb (neg_flag x) (neg_flag other)
    then cast UT (- div_low)
    else div_low in
  cast (T c) div_low.

(** Line 223; the shift is defined for
    [shift_defined multdiv_cast_type scale_bits] and the division for a
    nonzero divisor and a quotient that the promoted cast type holds. *)
Definition div_fast (x other : Z) : Z :=
  let W := multdiv_cast_type c in
  let P := promote W in
  cast (T c)
    (cast P (Z.quot (cast P (Z.shiftl (cast W x) (scale_bits c))) (cast W other))).

(** [operator/=(const fixed&)] *)
Definition div_assign (x other : fixed c) : fixed c :=
  Fixed (if fast_multdiv c
         then div_fast (raw_data x) (raw_data other)
         else div_safe (raw_data x) (raw_data other)).

(** [operator/=(integer)]: [raw_data /= other], computed in the common
    type [C] of [T] and the type of [other]; defined for
    [div_defined C raw_data other]. *)
Definition div_assign_int (x : fixed c) (K : int_type) (k : Z) : fixed c :=
  let C := common_type (T c) K in
  Fixed (cast (T c) (cast C (Z.quot (cast C (raw_data x)) (cast C k)))).

(** *** Shifts (lines 97-98, 244-245) *)

(** [raw_data <<= amt] and [raw_data >>= amt] for an integer [amt]; defined
    for [shift_defined T amt]. *)
Definition shl_assign (x : fixed c) (amt : Z) : fixed c :=
  Fixed (cast (T c) (Z.shiftl (raw_data x) amt)).

Definition shr_assign (x : fixed c) (amt : Z) : fixed c :=
  Fixed (cast (T c) (Z.shiftr (raw_data x) amt)).

(** *** The binary operators (lines 87-98, 247-253)

    [operator*(auto other)] and its siblings copy [*this] and apply the
    compound assignment to [other].  An integer operand selects the integer
    overload where there is one ([*=], [/=]); where there is none ([%=]) it
    is converted by the constructor [fixed(int_val)] first.  The shift
    operators are constrained by [integer_or_T]: [None] stands for a call
    without a viable overload, which does not compile. *)

Definition op_mul (x : fixed c) (other : operand c) : fixed c :=
  match other with
  | FixedArg y => mul_assign x y
  | IntArg K k => mul_assign_int x K k
  end.

Definition op_div (x : fixed c) (other : operand c) : fixed c :=
  match other with
  | FixedArg y => div_assign x y
  | IntArg K k => div_assign_int x K k
  end.

Definition op_rem (x : fixed c) (other : operand c) : fixed c :=
  match other with
  | FixedArg y => rem_assign x y
  | IntArg _ k => rem_assign x (from_integer k)
  end.

Definition op_shl (x : fixed c) (amt : operand c) : option (fixed c) :=
  if integer_or_T amt
  then match amt with
       | IntArg _ k => Some (shl_assign x k)
       | FixedArg _ => None
       end
  else None.

Definition op_shr (x : fixed c) (amt : operand c) : option (fixed c) :=
  if integer_or_T amt
  then match amt with
       | IntArg _ k => Some (shr_assign x k)
       | FixedArg _ => None
       end
  else None.

(** Line 251: [friend operator*(integer left, const fixed& right)]:
    [result = right; result.raw_data *= left]. *)
Definition int_mul (K : int_type) (left : Z) (right : fixed c) : fixed c :=
  let C := common_type (T c) K in
  Fixed (cast (T c) (cast C (cast C (raw_data right) * cast C left))).

(** *** [std::numeric_limits<fixed<...>>] (lines 292-295) *)

Definition limits_min : fixed c := Fixed (numeric_min (T c)).
Definition limits_max : fixed c := Fixed (numeric_max (T c)).
Definition limits_epsilon : fixed c := from_scaled 1 (scale_bits c).

End Fixed.

(** ** The remaining operators *)

Section Operators.

Variable c : config.

(** *** Unary operators (lines 85, 86, 93) *)

Definition pos (x : fixed c) : fixed c := Fixed (cast (T c) (raw_data x)).

Definition neg (x : fixed c) : fixed c := Fixed (cast (T c) (- raw_data x)).

Definition bit_not (x : fixed c) : fixed c :=
  Fixed (cast (T c) (Z.lnot (raw_data x))).

(** *** Bitwise assignments (lines 241-243) *)

Definition and_assign (x other : fixed c) : fixed c :=
  Fixed (cast (T c) (Z.land (raw_data x) (raw_data other))).

Definition or_assign (x other : fixed c) : fixed c :=
  Fixed (cast (T c) (Z.lor (raw_data x) (raw_data other))).

Definition xor_assign (x other : fixed c) : fixed c :=
  Fixed (cast (T c) (Z.lxor (raw_data x) (raw_data other))).

(** *** Binary operators without an integer overload (lines 87, 88, 94-96)

    Their compound assignments take [const fixed&] only, so an integer
    operand is converted by the constructor [fixed(int_val)]. *)

Definition to_fixed (other : operand c) : fixed c :=
  match other with
  | FixedArg y => y
  | IntArg _ k => from_integer c k
  end.

Definition op_add (x : fixed c) (other : operand c) : fixed c :=
  add_assign c x (to_fixed other).

Definition op_sub (x : fixed c) (other : operand c) : fixed c :=
  sub_assign c x (to_fixed other).

Definition op_and (x : fixed c) (other : operand c) : fixed c :=
  and_assign x (to_fixed other).

Definition op_or (x : fixed c) (other : operand c) : fixed c :=
  or_assign x (to_fixed other).

Definition op_xor (x : fixed c) (other : operand c) : fixed c :=
  xor_assign x (to_fixed other).

(** *** Operators with the integer on the left (lines 247, 248, 252-257):
    [fixed(left) op right]. *)

Definition int_add (left : Z) (right : fixed c) : fixed c :=
  op_add (from_integer c left) (FixedArg right).

Definition int_sub (left : Z) (right : fixed c) : fixed c :=
  op_sub (from_integer c left) (FixedArg right).

Definition int_div (left : Z) (right : fixed c) : fixed c :=
  op_div c (from_integer c left) (FixedArg right).

Definition int_rem (left : Z) (right : fixed c) : fixed c :=
  op_rem c (from_integer c left) (FixedArg right).

Definition int_and (left : Z) (right : fixed c) : fixed c :=
  op_and (from_integer c left) (FixedArg right).

Definition int_or (left : Z) (right : fixed c) : fixed c :=
  op_or (from_integer c left) (FixedArg right).

Definition int_xor (left : Z) (right : fixed c) : fixed c :=
  op_xor (from_integer c left) (FixedArg right).

(** *** Comparison (lines 259-260): [raw_data <=> other.raw_data], and the
    defaulted [operator==]. *)

Definition three_way (x other : fixed c) : comparison :=
  Z.compare (raw_data x) (raw_data other).

Definition op_eq (x other : fixed c) : bool :=
  raw_data x =? raw_data other.

(** *** [numeric_limits]: [lowest()] and [round_error()] (lines 293, 296);
    [numeric_limits<T>::lowest()] is [min()] for an integer type, and
    [round_error()] returns the integer [1] converted by the constructor. *)

Definition limits_lowest : fixed c := Fixed (numeric_min (T c)).

Definition limits_round_error : fixed c := from_integer c 1.

End Operators.

(** ** Configurations used in the examples *)

(** [supsm::fixed<uint32_t, 16>], the configuration of the README. *)
Definition fixed_u32_16 : config := Config uint32_t 16 false uint32_t.

(** [supsm::fixed<int32_t, 16>] *)
Definition fixed_i32_16 : config := Config int32_t 16 false int32_t.

(** [supsm::fixed<int32_t, 16, true, int64_t>] *)
Definition fixed_i32_16_fast : config := Config int32_t 16 true int64_t.

(** ** The invariant of the division loop

    After [i] rounds the dividend [A] (a double-width word) has given up
    its top [n + i] bits: they are [q * b + div_high] with [div_high < b],
    the quotient bits [q] sit in the low [i] bits of [div_low], and the
    [n - i] bits [m] of [A] that remain sit above them. *)
Definition div_inv (n A b i : Z) (st : Z * Z) : Prop :=
  exists q m,
    0 <= q < 2 ^ i /\
    0 <= m < 2 ^ (n - i) /\
    snd st = m * 2 ^ i + q /\
    0 <= fst st < b /\
    A = (q * b + fst st) * 2 ^ (n - i) + m.

(** Closed goals about concrete numbers: ranges, inequalities, values. *)
Ltac solve_range :=
  vm_compute; repeat split;
  solve [reflexivity | discriminate | intro; discriminate].

(** * Properties *)

(** ** Integer types and conversions *)

Lemma bits_pos (A : int_type) : 0 < bits A.
Proof. destruct A as [[] s]; reflexivity. Qed.

Lemma bits_half (A : int_type) : bits A = 2 * (bits A / 2).
Proof. destruct A as [[] s]; reflexivity. Qed.

Lemma bits_half_pos (A : int_type) : 0 < bits A / 2.
Proof. destruct A as [[] s]; reflexivity. Qed.

Lemma bits_make_unsigned (A : int_type) : bits (make_unsigned A) = bits A.
Proof. reflexivity. Qed.

Lemma pow2_pos (k : Z) : 0 <= k -> 0 < 2 ^ k.
Proof. intros; apply Z.pow_pos_nonneg; lia. Qed.

Lemma pow2_split (n : Z) : 0 < n -> 2 ^ n = 2 * 2 ^ (n - 1).
Proof.
  intros Hn. replace n with (Z.succ (n - 1)) at 1 by lia.
  rewrite Z.pow_succ_r by lia. reflexivity.
Qed.

Lemma cast_unsigned (A : int_type) (z : Z) :
  cast (make_unsigned A) z = z mod 2 ^ bits A.
Proof. reflexivity. Qed.

Lemma cast_in_range (A : int_type) (z : Z) : in_range A z -> cast A z = z.
Proof.
  unfold in_range, numeric_min, numeric_max, cast.
  pose proof (bits_pos A) as Hb. pose proof (pow2_split _ Hb) as Hs.
  pose proof (pow2_pos (bits A - 1) ltac:(lia)) as Hp.
  destruct (is_signed A); intros Hz.
  - rewrite Z.mod_small; lia.
  - apply Z.mod_small; lia.
Qed.

Lemma cast_range (A : int_type) (z : Z) : in_range A (cast A z).
Proof.
  unfold in_range, numeric_min, numeric_max, cast.
  pose proof (bits_pos A) as Hb. pose proof (pow2_split _ Hb) as Hs.
  pose proof (pow2_pos (bits A - 1) ltac:(lia)) as Hp.
  destruct (is_signed A).
  - pose proof (Z.mod_pos_bound (z + 2 ^ (bits A - 1)) (2 ^ bits A)); lia.
  - pose proof (Z.mod_pos_bound z (2 ^ bits A)); lia.
Qed.

(** [cast] only looks at the residue modulo [2 ^ bits]. *)
Lemma cast_congr (A : int_type) (y z : Z) :
  y mod 2 ^ bits A = z mod 2 ^ bits A -> cast A y = cast A z.
Proof.
  unfold cast. intros H. destruct (is_signed A); [|exact H].
  f_equal. rewrite (Z.add_mod y), (Z.add_mod z), H; try reflexivity;
    apply Z.pow_nonzero; pose proof (bits_pos A); lia.
Qed.

Lemma cast_mod (A : int_type) (z : Z) : cast A (z mod 2 ^ bits A) = cast A z.
Proof.
  apply cast_congr, Z.mod_mod, Z.pow_nonzero; pose proof (bits_pos A); lia.
Qed.

Lemma in_range_unsigned (A : int_type) (z : Z) :
  in_range (make_unsigned A) z <-> 0 <= z < 2 ^ bits A.
Proof. unfold in_range, numeric_min, numeric_max; simpl. rewrite bits_make_unsigned. lia. Qed.

(** Bitwise "or" of two numbers without a common bit is their sum. *)
Lemma lor_add (x y : Z) : Z.land x y = 0 -> Z.lor x y = x + y.
Proof.
  intros H. rewrite <- Z.lxor_lor by exact H.
  symmetry. apply Z.add_nocarry_lxor. exact H.
Qed.

Lemma land_shifted_small (x y k : Z) :
  0 <= k -> 0 <= y < 2 ^ k -> Z.land (x * 2 ^ k) y = 0.
Proof.
  intros Hk Hy.
  destruct (Z.eq_dec y 0) as [-> | Hy0]; [apply Z.land_0_r |].
  apply Z.bits_inj'. intros i Hi.
  rewrite Z.land_spec, Z.bits_0.
  destruct (Z.lt_ge_cases i k) as [Hlt | Hge].
  - rewrite Z.mul_pow2_bits_low by lia. reflexivity.
  - rewrite (Z.bits_above_log2 y i), andb_false_r; [reflexivity | lia |].
    apply Z.lt_le_trans with k; [|lia].
    apply Z.log2_lt_pow2; lia.
Qed.

Lemma lor_shifted_small (x y k : Z) :
  0 <= k -> 0 <= y < 2 ^ k -> Z.lor (x * 2 ^ k) y = x * 2 ^ k + y.
Proof. intros; apply lor_add, land_shifted_small; assumption. Qed.

(** The mask [(UT(1) << k) - 1] computed in [UT]. *)
Lemma mask_ones (A : int_type) (k : Z) :
  0 <= k <= bits A ->
  cast (make_unsigned A) (cast (make_unsigned A) (Z.shiftl 1 k) - 1) = Z.ones k.
Proof.
  intros Hk. rewrite !cast_unsigned, Z.shiftl_1_l, Z.ones_equiv.
  pose proof (pow2_pos k ltac:(lia)) as Hp.
  pose proof (bits_pos A) as Hb.
  destruct (Z.eq_dec k (bits A)) as [-> | Hne].
  - rewrite Z.mod_same by lia.
    replace (0 - 1) with (2 ^ bits A - 1 + (-1) * 2 ^ bits A) by lia.
    rewrite Z.mod_add by lia. apply Z.mod_small. unfold Z.pred; lia.
  - assert (2 ^ k < 2 ^ bits A) by (apply Z.pow_lt_mono_r; lia).
    rewrite (Z.mod_small (2 ^ k)) by lia.
    rewrite Z.mod_small; unfold Z.pred; lia.
Qed.

(** ** Long multiplication *)

(** Half-word arithmetic: [H] is [2 ^ low_bits_num]. *)

Lemma halfword_prod_bound (H x y : Z) :
  0 <= x < H -> 0 <= y < H -> 0 <= x * y <= H * H - 2 * H + 1.
Proof. intros Hx Hy. nia. Qed.

Lemma word_of_halves (H hi lo : Z) :
  0 <= hi < H -> 0 <= lo < H -> 0 <= hi * H + lo < H * H.
Proof. intros Hx Hy. nia. Qed.

Lemma long_mul_identity (H ah al bh bl Lh r0 Xh Xl Yh r1 r2 r3 : Z) :
  al * bl = Lh * H + r0 ->
  ah * bl + Lh = Xh * H + Xl ->
  al * bh + Xl = Yh * H + r1 ->
  ah * bh + Xh + Yh = r3 * H + r2 ->
  (r3 * H + r2) * (H * H) + (r1 * H + r0) = (ah * H + al) * (bh * H + bl).
Proof.
  intros E1 E2 E3 E4. rewrite <- E4.
  assert (R0 : r0 = al * bl - Lh * H) by lia.
  assert (R1 : r1 = al * bh + Xl - Yh * H) by lia.
  assert (RX : Xl = ah * bl + Lh - Xh * H) by lia.
  rewrite R0, R1, RX. ring.
Qed.

Section LongMultiplication.

Variable c : config.

Let n : Z := bits (T c).
Let h : Z := bits (T c) / 2.

Lemma half_width_pow : 2 ^ n = 2 ^ h * 2 ^ h.
Proof.
  unfold n, h. rewrite (bits_half (T c)) at 1.
  rewrite <- Z.pow_add_r by (pose proof (bits_half_pos (T c)); lia).
  f_equal. lia.
Qed.

Lemma low_bits_eq (x : Z) : low_bits c x = (x mod 2 ^ n) mod 2 ^ h.
Proof.
  unfold low_bits. pose proof (bits_half_pos (T c)) as Hh.
  rewrite mask_ones by (pose proof (bits_half (T c)); lia).
  rewrite Z.land_ones by lia. reflexivity.
Qed.

Lemma high_bits_eq (x : Z) : high_bits c x = (x mod 2 ^ n) / 2 ^ h.
Proof.
  unfold high_bits. pose proof (bits_half_pos (T c)) as Hh.
  rewrite Z.shiftr_div_pow2 by lia. reflexivity.
Qed.

(** A word splits into its two half-words. *)
Lemma halves_bounds (x : Z) :
  0 <= x < 2 ^ n ->
  x = high_bits c x * 2 ^ h + low_bits c x /\
  0 <= high_bits c x < 2 ^ h /\ 0 <= low_bits c x < 2 ^ h.
Proof.
  intros Hx. rewrite low_bits_eq, high_bits_eq, Z.mod_small by exact Hx.
  pose proof (bits_half_pos (T c)) as Hh. fold h in Hh.
  pose proof (pow2_pos h ltac:(lia)) as Hp.
  pose proof half_width_pow as Hn.
  pose proof (Z.div_mod x (2 ^ h) ltac:(lia)) as Hdm.
  pose proof (Z.mod_pos_bound x (2 ^ h) Hp) as Hm.
  repeat split; try lia.
  - apply Z.div_pos; lia.
  - apply Z.div_lt_upper_bound; lia.
Qed.

Lemma cast_UT_small (x : Z) : 0 <= x < 2 ^ n -> cast (make_unsigned (T c)) x = x.
Proof. intros Hx. rewrite cast_unsigned. apply Z.mod_small. exact Hx. Qed.

(** [result_0 | (result_1 << low_bits_num)] stored in a [UT]. *)
Lemma assemble_halves (lo hi : Z) :
  0 <= lo < 2 ^ h -> 0 <= hi < 2 ^ h ->
  cast (make_unsigned (T c)) (Z.lor lo (Z.shiftl hi h)) = hi * 2 ^ h + lo.
Proof.
  intros Hlo Hhi. pose proof (bits_half_pos (T c)) as Hh. fold h in Hh.
  rewrite Z.shiftl_mul_pow2, Z.lor_comm, lor_shifted_small by lia.
  apply cast_UT_small. rewrite half_width_pow. apply word_of_halves; assumption.
Qed.

(** The four partial sums stay below [2 ^ n], and the two assembled words
    are the exact product. *)
Lemma long_mul_no_wrap (a b : Z) :
  0 <= a < 2 ^ n -> 0 <= b < 2 ^ n ->
  (0 <= L1_L2_sum c a b <= 2 ^ n - 1 /\
   0 <= H1_L2_C_sum c a b <= 2 ^ n - 1 /\
   0 <= L1_H2_C_sum c a b <= 2 ^ n - 1 /\
   0 <= H1_H2_C_sum c a b <= 2 ^ n - 1) /\
  0 <= result_low c a b < 2 ^ n /\
  0 <= result_high c a b < 2 ^ n /\
  result_high c a b * 2 ^ n + result_low c a b = a * b.
Proof.
  intros Ha Hb.
  pose proof (bits_half_pos (T c)) as Hh. fold h in Hh.
  pose proof (pow2_pos h ltac:(lia)) as Hp.
  pose proof half_width_pow as Hn.
  destruct (halves_bounds a Ha) as (Ea & Hah & Hal).
  destruct (halves_bounds b Hb) as (Eb & Hbh & Hbl).
  pose proof (halfword_prod_bound _ _ _ Hal Hbl) as Pll.
  pose proof (halfword_prod_bound _ _ _ Hah Hbl) as Phl.
  pose proof (halfword_prod_bound _ _ _ Hal Hbh) as Plh.
  pose proof (halfword_prod_bound _ _ _ Hah Hbh) as Phh.
  (* L1_L2 *)
  assert (H1 : 0 <= L1_L2_sum c a b <= 2 ^ n - 1)
    by (unfold L1_L2_sum; lia).
  assert (E1 : L1_L2 c a b = L1_L2_sum c a b)
    by (apply cast_UT_small; lia).
  destruct (halves_bounds (L1_L2 c a b) ltac:(lia)) as (EL & HLh & HLl).
  (* H1_L2_C *)
  assert (H2 : 0 <= H1_L2_C_sum c a b <= 2 ^ n - 1)
    by (unfold H1_L2_C_sum; lia).
  assert (E2 : H1_L2_C c a b = H1_L2_C_sum c a b)
    by (apply cast_UT_small; lia).
  destruct (halves_bounds (H1_L2_C c a b) ltac:(lia)) as (EX & HXh & HXl).
  (* L1_H2_C *)
  assert (H3 : 0 <= L1_H2_C_sum c a b <= 2 ^ n - 1)
    by (unfold L1_H2_C_sum; lia).
  assert (E3 : L1_H2_C c a b = L1_H2_C_sum c a b)
    by (apply cast_UT_small; lia).
  destruct (halves_bounds (L1_H2_C c a b) ltac:(lia)) as (EY & HYh & HYl).
  (* H1_H2_C *)
  assert (H4 : 0 <= H1_H2_C_sum c a b <= 2 ^ n - 1)
    by (unfold H1_H2_C_sum; lia).
  assert (E4 : H1_H2_C c a b = H1_H2_C_sum c a b)
    by (apply cast_UT_small; lia).
  destruct (halves_bounds (H1_H2_C c a b) ltac:(lia)) as (EZ & HZh & HZl).
  (* the two result words *)
  assert (ELo : result_low c a b = result_1 c a b * 2 ^ h + result_0 c a b)
    by (apply assemble_halves; assumption).
  assert (EHi : result_high c a b = result_3 c a b * 2 ^ h + result_2 c a b)
    by (apply assemble_halves; assumption).
  split; [repeat split; lia |].
  rewrite ELo, EHi, Hn.
  split; [apply word_of_halves; assumption |].
  split; [apply word_of_halves; assumption |].
  rewrite (f_equal2 Z.mul Ea Eb).
  unfold result_0, result_1, result_2, result_3.
  apply long_mul_identity with
    (Lh := high_bits c (L1_L2 c a b))
    (Xh := high_bits c (H1_L2_C c a b)) (Xl := low_bits c (H1_L2_C c a b))
    (Yh := high_bits c (L1_H2_C c a b)).
  - rewrite <- EL, E1. reflexivity.
  - rewrite <- EX, E2. reflexivity.
  - rewrite <- EY, E3. reflexivity.
  - rewrite <- EZ, E4. reflexivity.
Qed.

End LongMultiplication.

(** ** Sign handling shared by multiplication and division *)

Lemma cast_shift (A : int_type) (z k : Z) : cast A (z + k * 2 ^ bits A) = cast A z.
Proof.
  apply cast_congr, Z.mod_add, Z.pow_nonzero; pose proof (bits_pos A); lia.
Qed.

Lemma cast_diff (A : int_type) (z : Z) : exists k, cast A z = z + k * 2 ^ bits A.
Proof.
  pose proof (bits_pos A) as Hb. pose proof (pow2_pos (bits A) ltac:(lia)) as Hp.
  unfold cast. destruct (is_signed A).
  - exists (- ((z + 2 ^ (bits A - 1)) / 2 ^ bits A)).
    rewrite Z.mod_eq by lia. lia.
  - exists (- (z / 2 ^ bits A)). rewrite Z.mod_eq by lia. lia.
Qed.

Lemma cast_opp_cast (A B : int_type) (z : Z) :
  bits B = bits A -> cast A (- cast B z) = cast A (- z).
Proof.
  intros HB. destruct (cast_diff B z) as [k Hk]. rewrite Hk, HB.
  replace (- (z + k * 2 ^ bits A)) with (- z + (- k) * 2 ^ bits A) by lia.
  apply cast_shift.
Qed.

Lemma cast_cast (A B : int_type) (z : Z) :
  bits B = bits A -> cast A (cast B z) = cast A z.
Proof.
  intros HB. destruct (cast_diff B z) as [k Hk]. rewrite Hk, HB.
  apply cast_shift.
Qed.

Lemma in_range_abs (A : int_type) (z : Z) :
  in_range A z -> 0 <= Z.abs z < 2 ^ bits A.
Proof.
  unfold in_range, numeric_min, numeric_max.
  pose proof (bits_pos A) as Hb. pose proof (pow2_split _ Hb) as Hs.
  pose proof (pow2_pos (bits A - 1) ltac:(lia)) as Hp.
  destruct (is_signed A); lia.
Qed.

Section Sign.

Variable c : config.

Let n : Z := bits (T c).

Lemma neg_flag_signed (raw : Z) :
  is_signed (T c) = true -> in_range (T c) raw ->
  neg_flag c raw = (raw <? 0).
Proof.
  unfold in_range, numeric_min, numeric_max, neg_flag. intros -> Hr.
  pose proof (bits_pos (T c)) as Hb. pose proof (pow2_split _ Hb) as Hs.
  pose proof (pow2_pos (bits (T c) - 1) ltac:(lia)) as Hp.
  rewrite cast_unsigned, Z.shiftr_div_pow2 by lia.
  destruct (Z.ltb_spec raw 0) as [Hneg | Hpos].
  - replace raw with (raw + 2 ^ bits (T c) + (-1) * 2 ^ bits (T c)) by lia.
    rewrite Z.mod_add, Z.mod_small by lia.
    assert ((raw + 2 ^ bits (T c)) / 2 ^ (bits (T c) - 1) = 1) as ->; [|reflexivity].
    symmetry. apply Z.div_unique with (r := raw + 2 ^ (bits (T c) - 1)); lia.
  - rewrite Z.mod_small, Z.div_small by lia. reflexivity.
Qed.

Lemma magnitude_abs (raw : Z) :
  in_range (T c) raw -> magnitude c raw = Z.abs raw.
Proof.
  intros Hr. pose proof (in_range_abs _ _ Hr) as Ha.
  unfold magnitude. destruct (is_signed (T c)) eqn:Hs.
  - rewrite (neg_flag_signed raw Hs Hr).
    destruct (Z.ltb_spec raw 0) as [Hneg | Hpos].
    + rewrite cast_opp_cast by reflexivity.
      rewrite cast_unsigned, Z.mod_small; lia.
    + rewrite cast_unsigned, Z.mod_small; lia.
  - unfold in_range, numeric_min, numeric_max in Hr. rewrite Hs in Hr.
    rewrite cast_unsigned, Z.mod_small; lia.
Qed.

End Sign.

(** ** Safe multiplication *)

Section SafeMultiplication.

Variable c : config.

Let n : Z := bits (T c).
Let s : Z := scale_bits c.

Hypothesis scale_ok : 0 <= scale_bits c <= bits (T c).




End SafeMultiplication.

(** ** Safe division *)

Lemma lor_ones_small (x k : Z) :
  0 <= k -> 0 <= x < 2 ^ k -> Z.lor x (Z.ones k) = Z.ones k.
Proof.
  intros Hk Hx. pose proof (Z.add_lor_land x (Z.ones k)) as H.
  rewrite Z.land_ones, Z.mod_small in H by lia. lia.
Qed.

(** Splitting off the top bit of [m * p + q], where [m] has one bit more
    than [e] and [q] is below [p]. *)
Lemma top_bit_split (p e m q : Z) :
  0 < p -> 0 < e -> 0 <= m < 2 * e -> 0 <= q < p ->
  (m * p + q) / (e * p) = m / e /\
  (m * p + q) mod (e * p) = (m mod e) * p + q.
Proof.
  intros Hp He Hm Hq.
  pose proof (Z.div_mod m e ltac:(lia)) as Hdm.
  pose proof (Z.mod_pos_bound m e He) as Hb.
  assert (Hr : 0 <= (m mod e) * p + q < e * p) by nia.
  assert (Heq : m * p + q = e * p * (m / e) + ((m mod e) * p + q)).
  { rewrite Hdm at 1. ring. }
  split; symmetry.
  - apply Z.div_unique with (r := (m mod e) * p + q); [left; exact Hr | exact Heq].
  - apply Z.mod_unique with (q := m / e); [left; exact Hr | exact Heq].
Qed.

Section SafeDivision.

Variable c : config.

Let n : Z := bits (T c).
Let s : Z := scale_bits c.

(** What one round computes, in plain arithmetic: [V] is the remainder
    shifted left with the next dividend bit, one bit wider than a word. *)
Lemma div_step_spec (b hi lo : Z) :
  0 <= hi < b -> b < 2 ^ n -> 0 <= lo < 2 ^ n ->
  div_step c b (hi, lo) =
    let V := 2 * hi + lo / 2 ^ (n - 1) in
    let l := 2 * (lo mod 2 ^ (n - 1)) in
    if b <=? V then (V - b, l + 1) else (V, l).
Proof.
  intros Hhi Hb Hlo.
  pose proof (bits_pos (T c)) as Hn. fold n in Hn.
  pose proof (pow2_split n Hn) as Hs.
  pose proof (pow2_pos (n - 1) ltac:(lia)) as Hp.
  cbv zeta. unfold div_step. fold n.
  rewrite !cast_unsigned. fold n.
  rewrite !Z.shiftr_div_pow2, !Z.shiftl_mul_pow2 by lia.
  assert (Hbit : 0 <= lo / 2 ^ (n - 1) <= 1).
  { split; [apply Z.div_pos; lia |].
    apply Z.lt_succ_r, Z.div_lt_upper_bound; lia. }
  assert (Hlo' : (lo * 2) mod 2 ^ n = 2 * (lo mod 2 ^ (n - 1))).
  { rewrite Hs, (Z.mul_comm lo 2). apply Z.mul_mod_distr_l; lia. }
  pose proof (Z.mod_pos_bound lo (2 ^ (n - 1)) Hp) as Hlm.
  rewrite lor_shifted_small by (change (2 ^ 1) with 2; lia).
  change (2 ^ 1) with 2.
  rewrite Hlo'.
  replace (hi * 2 + lo / 2 ^ (n - 1)) with (2 * hi + lo / 2 ^ (n - 1)) by lia.
  set (V := 2 * hi + lo / 2 ^ (n - 1)).
  assert (HV : 0 <= V <= 2 * b - 1) by (unfold V; lia).
  destruct (Z.lt_ge_cases hi (2 ^ (n - 1))) as [Hsmall | Hbig].
  - (* the top bit of div_high is clear: t = 0 *)
    rewrite (Z.div_small hi) by lia. simpl (- 0). rewrite Z.mod_0_l by lia.
    rewrite Z.lor_0_r, (Z.mod_small V) by (unfold V; lia).
    destruct (Z.leb_spec b V) as [Hge | Hlt]; [|reflexivity].
    f_equal; apply Z.mod_small; lia.
  - (* the top bit is set: t is all ones and the comparison succeeds *)
    assert (hi / 2 ^ (n - 1) = 1) as ->.
    { symmetry. apply Z.div_unique with (r := hi - 2 ^ (n - 1)); lia. }
    assert ((- (1)) mod 2 ^ n = Z.ones n) as ->.
    { rewrite Z.ones_equiv.
      replace (- (1)) with (2 ^ n - 1 + (-1) * 2 ^ n) by lia.
      rewrite Z.mod_add by lia. rewrite Z.mod_small; unfold Z.pred; lia. }
    rewrite lor_ones_small
      by (try lia; apply Z.mod_pos_bound; lia).
    assert (HVm : V mod 2 ^ n = V - 2 ^ n).
    { symmetry. apply Z.mod_unique with (q := 1); unfold V; lia. }
    rewrite Z.ones_equiv. unfold Z.pred.
    destruct (Z.leb_spec b (2 ^ n + -1)) as [_ | Habs]; [|lia].
    destruct (Z.leb_spec b V) as [_ | Habs]; [|unfold V in *; lia].
    rewrite HVm. f_equal.
    + replace (V - 2 ^ n - b) with (V - b + (-1) * 2 ^ n) by lia.
      rewrite Z.mod_add by lia. apply Z.mod_small. lia.
    + apply Z.mod_small. lia.
Qed.

Lemma div_inv_init (b hi lo : Z) :
  0 <= hi < b -> 0 <= lo < 2 ^ n ->
  div_inv n (hi * 2 ^ n + lo) b 0 (hi, lo).
Proof.
  intros Hhi Hlo. exists 0, lo. cbn [fst snd].
  rewrite Z.sub_0_r. change (2 ^ 0) with 1. repeat split; lia.
Qed.

Lemma div_inv_step (A b i : Z) (st : Z * Z) :
  0 <= i < n -> b < 2 ^ n ->
  div_inv n A b i st -> div_inv n A b (i + 1) (div_step c b st).
Proof.
  intros Hi Hb (q & m & Hq & Hm & Hlo & Hhi & HA).
  destruct st as [hi lo]. cbn [fst snd] in *.
  pose proof (pow2_pos i ltac:(lia)) as Hp.
  pose proof (pow2_pos (n - (i + 1)) ltac:(lia)) as He.
  assert (E1 : 2 ^ (n - i) = 2 * 2 ^ (n - (i + 1)))
    by (rewrite (pow2_split (n - i)) by lia; do 2 f_equal; lia).
  assert (E2 : 2 ^ (n - 1) = 2 ^ (n - (i + 1)) * 2 ^ i)
    by (rewrite <- Z.pow_add_r by lia; f_equal; lia).
  assert (E3 : 2 ^ (i + 1) = 2 * 2 ^ i)
    by (rewrite (pow2_split (i + 1)) by lia; do 2 f_equal; lia).
  assert (E4 : 2 ^ n = 2 * 2 ^ (n - 1)) by (apply pow2_split; lia).
  unfold div_inv. rewrite E1 in Hm, HA. rewrite E3.
  set (p := 2 ^ i) in *. set (e := 2 ^ (n - (i + 1))) in *.
  destruct (top_bit_split p e m q Hp He Hm Hq) as [Hdiv Hmod].
  pose proof (Z.div_mod m e ltac:(lia)) as Hdm.
  pose proof (Z.mod_pos_bound m e He) as Hmb.
  assert (Hbit : 0 <= m / e <= 1).
  { split; [apply Z.div_pos; lia |].
    apply Z.lt_succ_r, Z.div_lt_upper_bound; lia. }
  assert (Hlo_bound : 0 <= lo < 2 ^ n).
  { rewrite E4, E2, Hlo. fold e p. nia. }
  rewrite div_step_spec by lia. cbv zeta.
  rewrite E2. fold e p. rewrite Hlo, Hdiv, Hmod.
  destruct (Z.leb_spec b (2 * hi + m / e)) as [Hge | Hlt].
  - exists (2 * q + 1), (m mod e). cbn [fst snd].
    repeat split; lia.
  - exists (2 * q), (m mod e). cbn [fst snd].
    repeat split; lia.
Qed.

Lemma div_inv_finish (A b : Z) (st : Z * Z) :
  div_inv n A b n st -> snd st = A / b.
Proof.
  intros (q & m & Hq & Hm & Hlo & Hhi & HA).
  rewrite Z.sub_diag in Hm, HA. change (2 ^ 0) with 1 in Hm, HA.
  assert (m = 0) by lia. subst m.
  rewrite Hlo. rewrite Z.mul_0_l, Z.add_0_l.
  apply Z.div_unique with (r := fst st); lia.
Qed.

Lemma div_loop_inv (A b : Z) (k : nat) :
  b < 2 ^ n ->
  forall (i : Z) (st : Z * Z),
    0 <= i -> i + Z.of_nat k = n ->
    div_inv n A b i st -> div_inv n A b n (div_loop c k b st).
Proof.
  intros Hb. induction k as [| k IH]; intros i st Hi Hk Hinv.
  - simpl. replace i with n in Hinv by lia. exact Hinv.
  - simpl. apply (IH (i + 1)); [lia | lia |].
    apply div_inv_step; [lia | exact Hb | exact Hinv].
Qed.

(** The loop on a dividend whose high word is below the divisor leaves the
    quotient in [div_low]. *)
Lemma div_loop_quotient (b hi lo : Z) :
  0 <= hi < b -> b < 2 ^ n -> 0 <= lo < 2 ^ n ->
  snd (div_loop c (Z.to_nat n) b (hi, lo)) = (hi * 2 ^ n + lo) / b.
Proof.
  intros Hhi Hb Hlo. pose proof (bits_pos (T c)) as Hn. fold n in Hn.
  apply div_inv_finish.
  apply div_loop_inv with (i := 0); [exact Hb | lia | lia |].
  apply div_inv_init; assumption.
Qed.

End SafeDivision.

Section SafeDivisionResult.

Variable c : config.

Let n : Z := bits (T c).
Let s : Z := scale_bits c.

Hypothesis scale_ok : 0 <= scale_bits c <= bits (T c).

(** Lines 197-198: the pair [(div_high, div_low)] is the magnitude of the
    dividend shifted left by [scale_bits], as a double-width word. *)
Lemma dividend_words (a : Z) :
  0 <= a < 2 ^ n ->
  let div_high := if s =? 0 then 0 else Z.shiftr a (n - s) in
  let div_low := cast (make_unsigned (T c)) (Z.shiftl a s) in
  div_high * 2 ^ n + div_low = a * 2 ^ s /\
  0 <= div_high /\ 0 <= div_low < 2 ^ n.
Proof.
  intros Ha. cbv zeta. fold n s in scale_ok.
  pose proof (bits_pos (T c)) as Hn. fold n in Hn.
  pose proof (pow2_pos n ltac:(lia)) as Hpn.
  pose proof (pow2_pos s ltac:(lia)) as Hps.
  pose proof (pow2_pos (n - s) ltac:(lia)) as Hpd.
  assert (Hsplit : 2 ^ n = 2 ^ (n - s) * 2 ^ s)
    by (rewrite <- Z.pow_add_r by lia; f_equal; lia).
  rewrite cast_unsigned, Z.shiftl_mul_pow2 by lia. fold n.
  assert (Hhigh : (if s =? 0 then 0 else Z.shiftr a (n - s)) = a * 2 ^ s / 2 ^ n).
  { rewrite Hsplit, Z.div_mul_cancel_r by lia.
    destruct (Z.eqb_spec s 0) as [Hs0 | Hs0].
    - rewrite Hs0, Z.sub_0_r. symmetry. apply Z.div_small. exact Ha.
    - apply Z.shiftr_div_pow2. lia. }
  rewrite Hhigh.
  pose proof (Z.div_mod (a * 2 ^ s) (2 ^ n) ltac:(lia)) as Hdm.
  pose proof (Z.mod_pos_bound (a * 2 ^ s) (2 ^ n) Hpn) as Hmb.
  repeat split; try lia.
  apply Z.div_pos; nia.
Qed.

Lemma div_safe_spec (x y : Z) :
  in_range (T c) x -> in_range (T c) y -> y <> 0 ->
  in_range (T c) (Z.quot (x * 2 ^ s) y) ->
  div_safe c x y = Z.quot (x * 2 ^ s) y.
Proof.
  intros Hx Hy Hy0 Hfit. fold n s in scale_ok.
  pose proof (bits_pos (T c)) as Hn. fold n in Hn.
  pose proof (pow2_pos n ltac:(lia)) as Hpn.
  pose proof (pow2_pos s ltac:(lia)) as Hps.
  pose proof (pow2_split n Hn) as Hhalf.
  pose proof (pow2_pos (n - 1) ltac:(lia)) as Hph.
  pose proof (in_range_abs _ _ Hx) as Hax. pose proof (in_range_abs _ _ Hy) as Hay.
  fold n in Hax, Hay.
  assert (Hb : 0 < Z.abs y) by lia.
  (* the quotient of the magnitudes, and the reference quotient *)
  set (q := Z.abs x * 2 ^ s / Z.abs y).
  assert (Hq0 : 0 <= q) by (apply Z.div_pos; nia).
  assert (Hquot : Z.quot (x * 2 ^ s) y = Z.sgn x * Z.sgn y * q).
  { rewrite Z.quot_div by exact Hy0.
    rewrite Z.sgn_mul, Z.abs_mul, (Z.sgn_pos (2 ^ s)), (Z.abs_eq (2 ^ s)) by lia.
    rewrite Z.mul_1_r. reflexivity. }
  rewrite Hquot in Hfit |- *.
  assert (Hqn : q < 2 ^ n).
  { unfold in_range, numeric_min, numeric_max in Hfit. fold n in Hfit.
    destruct (is_signed (T c));
      destruct (Z.sgn_spec x) as [[? Ex] | [[? Ex] | [? Ex]]];
      destruct (Z.sgn_spec y) as [[? Ey] | [[? Ey] | [? Ey]]];
      rewrite ?Ex, ?Ey in Hfit; try lia.
    all: assert (q = 0) by (unfold q; subst x; reflexivity); lia. }
  (* the loop *)
  unfold div_safe. rewrite !magnitude_abs by assumption.
  destruct (dividend_words (Z.abs x) Hax) as (Hwords & Hhi0 & Hlo0).
  cbv zeta in Hwords, Hhi0, Hlo0. fold n s.
  set (div_high := if s =? 0 then 0 else Z.shiftr (Z.abs x) (n - s)) in *.
  set (div_low := cast (make_unsigned (T c)) (Z.shiftl (Z.abs x) s)) in *.
  assert (Hhi : div_high < Z.abs y).
  { destruct (Z.lt_ge_cases div_high (Z.abs y)) as [Hlt | Hge]; [exact Hlt |].
    exfalso.
    assert (2 ^ n <= q); [|lia].
    apply Z.div_le_lower_bound; [lia |]. rewrite <- Hwords. nia. }
  rewrite div_loop_quotient by (fold n; lia). fold n.
  rewrite Hwords. fold q.
  (* the sign *)
  destruct (is_signed (T c)) eqn:Hs; simpl andb.
  - rewrite !neg_flag_signed by assumption.
    destruct (Z.ltb_spec x 0) as [Hxn | Hxp];
      destruct (Z.ltb_spec y 0) as [Hyn | Hyp]; simpl xorb; cbv iota.
    + rewrite !Z.sgn_neg in * by lia.
      replace (-1 * -1 * q) with q in * by lia. apply cast_in_range. exact Hfit.
    + rewrite cast_cast by reflexivity.
      rewrite Z.sgn_neg, Z.sgn_pos in * by lia.
      replace (-1 * 1 * q) with (- q) in * by lia. apply cast_in_range. exact Hfit.
    + rewrite cast_cast by reflexivity.
      destruct (Z.eq_dec x 0) as [Hx0 | Hx0].
      * assert (q = 0) as -> by (unfold q; rewrite Hx0; reflexivity).
        rewrite Z.mul_0_r in *. apply cast_in_range. exact Hfit.
      * rewrite Z.sgn_pos, Z.sgn_neg in * by lia.
        replace (1 * -1 * q) with (- q) in * by lia. apply cast_in_range. exact Hfit.
    + destruct (Z.eq_dec x 0) as [Hx0 | Hx0].
      * assert (Hqz : q = 0) by (unfold q; rewrite Hx0; reflexivity).
        rewrite Hqz, Z.mul_0_r in *. apply cast_in_range. exact Hfit.
      * rewrite !Z.sgn_pos in * by lia.
        replace (1 * 1 * q) with q in * by lia. apply cast_in_range. exact Hfit.
  - assert (0 <= x /\ 0 < y) as [Hxp Hyp]
      by (unfold in_range, numeric_min in Hx, Hy; rewrite Hs in Hx, Hy; lia).
    destruct (Z.eq_dec x 0) as [Hx0 | Hx0].
    + assert (Hqz : q = 0) by (unfold q; rewrite Hx0; reflexivity).
      rewrite Hqz, Z.mul_0_r in *. apply cast_in_range. exact Hfit.
    + rewrite !Z.sgn_pos in * by lia.
      replace (1 * 1 * q) with q in * by lia. apply cast_in_range. exact Hfit.
Qed.

End SafeDivisionResult.

(** ** Defined shifts *)

Lemma promote_bits (A : int_type) : bits A <= bits (promote A) <= 64.
Proof. destruct A as [[] []]; vm_compute; split; discriminate. Qed.

Lemma shift_defined_nonneg (A : int_type) (k : Z) : shift_defined A k -> 0 <= k.
Proof. intros [H _]. exact H. Qed.

Lemma shift_defined_size (A : int_type) (k : Z) : shift_defined A k -> k < 2 ^ 64.
Proof.
  intros [_ H]. pose proof (promote_bits A) as [_ Hp].
  assert (64 < 2 ^ 64) by reflexivity. lia.
Qed.

(** * The claims *)

(** ** Long multiplication (C7, C1, C6) *)

(** C7.  In the long multiplication of the safe strategy nothing wraps at
    the width of [UT]: for unsigned magnitudes [a] and [b] of [n] bits, the
    product [low * low] and the three accumulations [H1_L2_C], [L1_H2_C]
    and [H1_H2_C] are at most [2 ^ n - 1] before they are stored, and the
    two assembled words are the exact product [a * b]. *)
Theorem long_multiplication_never_wraps (c : config) (a b : Z) :
  0 <= a < 2 ^ bits (T c) -> 0 <= b < 2 ^ bits (T c) ->
  L1_L2_sum c a b <= 2 ^ bits (T c) - 1 /\
  H1_L2_C_sum c a b <= 2 ^ bits (T c) - 1 /\
  L1_H2_C_sum c a b <= 2 ^ bits (T c) - 1 /\
  H1_H2_C_sum c a b <= 2 ^ bits (T c) - 1 /\
  result_high c a b * 2 ^ bits (T c) + result_low c a b = a * b.
Proof.
  intros Ha Hb.
  destruct (long_mul_no_wrap c a b Ha Hb) as ((H1 & H2 & H3 & H4) & _ & _ & Hp).
  repeat split; solve [lia | exact Hp].
Qed.

Lemma long_multiplication_never_wraps_witness :
  (0 <= 4294967295 < 2 ^ bits (T fixed_u32_16)) /\
  H1_H2_C_sum fixed_u32_16 4294967295 4294967295 <= 2 ^ bits (T fixed_u32_16) - 1 /\
  result_high fixed_u32_16 4294967295 4294967295 * 2 ^ bits (T fixed_u32_16)
  + result_low fixed_u32_16 4294967295 4294967295 = 4294967295 * 4294967295.
Proof.
  assert (H : 0 <= 4294967295 < 2 ^ bits (T fixed_u32_16)) by solve_range.
  split; [exact H |].
  destruct (long_multiplication_never_wraps fixed_u32_16 _ _ H H)
    as (_ & _ & _ & H4 & Hp).
  split; [exact H4 | exact Hp].
Defined.



Section Commutativity.

Variable c : config.

Lemma magnitude_bound (raw : Z) : 0 <= magnitude c raw < 2 ^ bits (T c).
Proof.
  pose proof (bits_pos (T c)) as Hb.
  unfold magnitude.
  destruct (is_signed (T c)); [destruct (neg_flag c raw) |];
    rewrite cast_unsigned; apply Z.mod_pos_bound, pow2_pos; lia.
Qed.

Lemma result_words_comm (a b : Z) :
  0 <= a < 2 ^ bits (T c) -> 0 <= b < 2 ^ bits (T c) ->
  result_high c a b = result_high c b a /\ result_low c a b = result_low c b a.
Proof.
  intros Ha Hb.
  destruct (long_mul_no_wrap c a b Ha Hb) as (_ & Hl1 & _ & Hp1).
  destruct (long_mul_no_wrap c b a Hb Ha) as (_ & Hl2 & _ & Hp2).
  apply Z.div_mod_unique with (b := 2 ^ bits (T c)); [left; lia | left; lia |].
  lia.
Qed.

Lemma mul_safe_comm (x y : Z) : mul_safe c x y = mul_safe c y x.
Proof.
  unfold mul_safe.
  destruct (result_words_comm _ _ (magnitude_bound x) (magnitude_bound y)) as [-> ->].
  rewrite (xorb_comm (neg_flag c x)). reflexivity.
Qed.

Lemma mul_fast_comm (x y : Z) : mul_fast c x y = mul_fast c y x.
Proof. unfold mul_fast. rewrite Z.mul_comm. reflexivity. Qed.

End Commutativity.

(** C6.  Multiplication commutes: [a * b == b * a] for two values of one
    configuration, under the safe and under the fast strategy, and
    [k * a == a * k] for an integer [k] of any integral type. *)
Theorem multiplication_commutative (c : config) (a b : fixed c)
    (K : int_type) (k : Z) :
  op_mul c a (FixedArg b) = op_mul c b (FixedArg a) /\
  int_mul c K k a = op_mul c a (IntArg K k).
Proof.
  split; [|reflexivity].
  unfold op_mul, mul_assign. f_equal.
  destruct (fast_multdiv c); [apply mul_fast_comm | apply mul_safe_comm].
Qed.

(** ** Safe division (C2) *)

(** C2.  Under the safe strategy, for a divisor with [raw_b <> 0], whenever
    the exact quotient [raw_a * 2 ^ scale_bits / raw_b], truncated toward
    zero, is representable in [T], [operator/=] (and [operator/]) stores
    exactly that value, for signed and for unsigned [T].  The scale is at
    most the width of [T] and a defined shift count for it. *)
Theorem safe_division_correct (c : config) (a b : fixed c) :
  fast_multdiv c = false ->
  scale_bits c <= bits (T c) ->
  shift_defined (T c) (scale_bits c) ->
  in_range (T c) (raw_data a) -> in_range (T c) (raw_data b) ->
  raw_data b <> 0 ->
  in_range (T c) (Z.quot (raw_data a * 2 ^ scale_bits c) (raw_data b)) ->
  raw_data (div_assign c a b)
    = Z.quot (raw_data a * 2 ^ scale_bits c) (raw_data b) /\
  op_div c a (FixedArg b) = div_assign c a b.
Proof.
  intros Hsafe Hscale Hdef Ha Hb Hnz Hfit. split; [|reflexivity].
  pose proof (shift_defined_nonneg _ _ Hdef) as Hs0.
  unfold div_assign. rewrite Hsafe. cbn [raw_data].
  apply div_safe_spec; solve [assumption | lia].
Qed.

Lemma safe_division_correct_witness :
  let a : fixed fixed_i32_16 := Fixed (-851968) in
  let b : fixed fixed_i32_16 := Fixed 4096 in
  in_range int32_t (raw_data a) /\ in_range int32_t (raw_data b) /\
  raw_data b <> 0 /\
  in_range int32_t (Z.quot (raw_data a * 2 ^ 16) (raw_data b)) /\
  raw_data (div_assign fixed_i32_16 a b) = -13631488.
Proof.
  intros a b. unfold a, b.
  assert (Ha : in_range (T fixed_i32_16) (raw_data a)) by solve_range.
  assert (Hb : in_range (T fixed_i32_16) (raw_data b)) by solve_range.
  assert (Hn : raw_data b <> 0) by solve_range.
  assert (Hf : in_range (T fixed_i32_16)
                 (Z.quot (raw_data a * 2 ^ scale_bits fixed_i32_16) (raw_data b)))
    by solve_range.
  assert (Hs : scale_bits fixed_i32_16 <= bits (T fixed_i32_16)) by solve_range.
  assert (Hd : shift_defined (T fixed_i32_16) (scale_bits fixed_i32_16))
    by solve_range.
  split; [exact Ha | split; [exact Hb | split; [exact Hn | split; [exact Hf |]]]].
  exact (proj1 (safe_division_correct fixed_i32_16 _ _ eq_refl Hs Hd Ha Hb Hn Hf)).
Defined.

(** ** Construction and conversion (C3, C4, C5, C9) *)

(** When the target type can hold [raw_data] itself, the conversion is the
    shift of [raw_data]. *)
Lemma to_integer_wide_target (c : config) (T2 : int_type) (x : fixed c) :
  in_range T2 (raw_data x) ->
  to_integer c T2 x = cast T2 (Z.shiftr (raw_data x) (scale_bits c)).
Proof. intros H. unfold to_integer. rewrite (cast_in_range _ _ H). reflexivity. Qed.

(** With the internal type as the target the round trip holds. *)
Lemma round_trip_same_type (c : config) (v : Z) :
  0 <= scale_bits c ->
  in_range (T c) v -> in_range (T c) (v * 2 ^ scale_bits c) ->
  to_integer c (T c) (from_integer c v) = v.
Proof.
  intros Hs Hv Hsh. unfold to_integer, from_integer. cbn [raw_data].
  rewrite (cast_in_range _ _ Hv), Z.shiftl_mul_pow2 by exact Hs.
  rewrite !(cast_in_range _ _ Hsh), Z.shiftr_div_pow2 by exact Hs.
  rewrite Z.div_mul by (apply Z.pow_nonzero; lia).
  apply cast_in_range. exact Hv.
Qed.

(** C3.  The round trip through a target type narrower than [T] is lost:
    [fixed<int32_t, 16>(1)] has [raw_data = 65536], whose conversion to
    [int16_t] is [0] and not [1], although [1 << 16] fits [int32_t] and
    [1] fits [int16_t].  The operator casts [raw_data] to the target type
    before it shifts. *)
Theorem round_trip_lost_in_narrow_target :
  in_range int32_t (Z.shiftl 1 16) /\ in_range int16_t 1 /\
  raw_data (from_integer fixed_i32_16 1) = 65536 /\
  to_integer fixed_i32_16 int16_t (from_integer fixed_i32_16 1) = 0.
Proof. repeat split; solve_range. Qed.

(** C4.  The conversion to a narrower target type does not shift at the
    width of [T]: for [raw_data = 65536] in [fixed<int32_t, 16>] and the
    target [int16_t] the operator returns [0], whereas the shift followed
    by the narrowing, [int16_t(65536 >> 16)], is [1]. *)
Theorem to_integer_narrows_before_shift :
  to_integer fixed_i32_16 int16_t (Fixed 65536) = 0 /\
  cast int16_t (Z.shiftr 65536 (scale_bits fixed_i32_16)) = 1.
Proof. split; reflexivity. Qed.

Lemma size_sub_diag (a : Z) : size_sub a a = 0.
Proof. unfold size_sub. rewrite Z.sub_diag. reflexivity. Qed.

Lemma cast_one (A : int_type) : cast A 1 = 1.
Proof. destruct A as [[] []]; reflexivity. Qed.

(** C5, as stated, fails: in [fixed<uint32_t, 16>] the value built from
    [(1, 16)] has [raw_data = 1], the value built from [1] has
    [raw_data = 65536]. *)
Lemma from_scaled_own_scale_differs :
  from_scaled fixed_u32_16 1 (scale_bits fixed_u32_16) <> from_integer fixed_u32_16 1.
Proof. vm_compute. intros H. discriminate H. Qed.

(** C5, amended.  Constructing with the explicit scale [0] gives the same
    value as constructing from the plain integer; constructing with the
    type's own scale stores the integer itself, unshifted. *)
Theorem from_scaled_zero_is_from_integer (c : config) (v : Z) :
  0 <= scale_bits c < 2 ^ 64 ->
  from_scaled c v 0 = from_integer c v /\
  raw_data (from_scaled c v (scale_bits c)) = cast (T c) v.
Proof.
  intros Hs. unfold from_scaled, from_integer. split.
  - unfold size_sub. rewrite Z.sub_0_r, Z.mod_small by exact Hs. reflexivity.
  - cbn [raw_data]. rewrite size_sub_diag, Z.shiftl_0_r.
    apply cast_in_range, cast_range.
Qed.

Lemma from_scaled_zero_is_from_integer_witness :
  0 <= scale_bits fixed_u32_16 < 2 ^ 64 /\
  from_scaled fixed_u32_16 13 0 = from_integer fixed_u32_16 13 /\
  raw_data (from_scaled fixed_u32_16 13 (scale_bits fixed_u32_16)) = 13.
Proof.
  assert (Hs : 0 <= scale_bits fixed_u32_16 < 2 ^ 64) by solve_range.
  split; [exact Hs |].
  exact (from_scaled_zero_is_from_integer fixed_u32_16 13 Hs).
Defined.

(** C9.  For every configuration, [max()] and [min()] of the
    [numeric_limits] specialisation hold [numeric_limits<T>::max()] and
    [numeric_limits<T>::min()] in [raw_data], and [epsilon()] is the value
    built from [(1, scale_bits)], whose [raw_data] is [1]. *)
Theorem numeric_limits_values (c : config) :
  raw_data (limits_max c) = numeric_max (T c) /\
  raw_data (limits_min c) = numeric_min (T c) /\
  limits_epsilon c = from_scaled c 1 (scale_bits c) /\
  raw_data (limits_epsilon c) = 1.
Proof.
  repeat split.
  unfold limits_epsilon, from_scaled. cbn [raw_data].
  rewrite size_sub_diag, Z.shiftl_0_r, cast_one. apply cast_one.
Qed.

(** ** Shifts (C8) *)

Lemma in_range_div (A : int_type) (z d : Z) :
  0 < d -> in_range A z -> in_range A (z / d).
Proof.
  unfold in_range, numeric_min, numeric_max. intros Hd Hz.
  pose proof (bits_pos A) as Hb.
  pose proof (pow2_pos (bits A - 1) ltac:(lia)) as Hp.
  pose proof (pow2_pos (bits A) ltac:(lia)) as Hp'.
  pose proof (Z.div_mod z d ltac:(lia)) as Hdm.
  pose proof (Z.mod_pos_bound z d Hd) as Hm.
  destruct (is_signed A); nia.
Qed.

(** C8, as stated, fails: a value of the class is not accepted as a shift
    amount.  [integer_or_T] admits integral types and the internal type
    only, so [x << y] with [y] of the class has no viable overload. *)
Lemma shift_by_fixed_rejected :
  op_shl fixed_u32_16 (Fixed 65536) (FixedArg (Fixed 6))
    <> Some (shl_assign fixed_u32_16 (Fixed 65536) 6).
Proof. vm_compute. intros H. discriminate H. Qed.

(** C8, amended.  The shift operators take an integer amount, of any
    integral type, and for an amount that is a defined shift count for [T]
    (not negative, below the width of the promoted [T]) they shift
    [raw_data] by that many bits: to the left modulo [2 ^ bits], to the
    right with the sign (rounding down).  A value of the class as the
    amount is rejected. *)
Theorem shift_by_integer (c : config) (x y : fixed c) (K : int_type) (k : Z) :
  in_range (T c) (raw_data x) -> shift_defined (T c) k ->
  op_shl c x (IntArg K k) = Some (Fixed (cast (T c) (raw_data x * 2 ^ k))) /\
  op_shr c x (IntArg K k) = Some (Fixed (raw_data x / 2 ^ k)) /\
  op_shl c x (FixedArg y) = None /\
  op_shr c x (FixedArg y) = None.
Proof.
  intros Hx Hdef. pose proof (shift_defined_nonneg _ _ Hdef) as Hk.
  unfold op_shl, op_shr, shl_assign, shr_assign. cbn [integer_or_T].
  rewrite Z.shiftl_mul_pow2, Z.shiftr_div_pow2 by exact Hk.
  rewrite (cast_in_range (T c) (raw_data x / 2 ^ k))
    by (apply in_range_div; [apply pow2_pos; exact Hk | exact Hx]).
  repeat split.
Qed.

Lemma shift_by_integer_witness :
  in_range uint32_t 65536 /\ shift_defined uint32_t 6 /\
  op_shl fixed_u32_16 (Fixed 65536) (IntArg int32_t 6)
    = Some (from_integer fixed_u32_16 64) /\
  op_shr fixed_u32_16 (Fixed 65536) (IntArg int32_t 6) = Some (Fixed 1024).
Proof.
  assert (Hx : in_range (T fixed_u32_16) (raw_data (@Fixed fixed_u32_16 65536)))
    by solve_range.
  assert (Hk : shift_defined (T fixed_u32_16) 6) by solve_range.
  split; [exact Hx | split; [exact Hk |]].
  destruct (shift_by_integer fixed_u32_16 (Fixed 65536) (Fixed 0) int32_t 6 Hx Hk)
    as (Hl & Hr & _).
  split; [exact Hl | exact Hr].
Defined.

(** ** Remainder and division by an integer (C10) *)

Lemma in_range_rem (A : int_type) (z d : Z) :
  d <> 0 -> in_range A z -> in_range A (Z.rem z d).
Proof.
  unfold in_range, numeric_min, numeric_max. intros Hd Hz.
  pose proof (bits_pos A) as Hb.
  pose proof (pow2_pos (bits A - 1) ltac:(lia)) as Hp.
  pose proof (pow2_pos (bits A) ltac:(lia)) as Hp'.
  rewrite Z.rem_mod by exact Hd.
  pose proof (Z.mod_pos_bound (Z.abs z) (Z.abs d) ltac:(lia)) as Hm.
  assert (Hle : Z.abs z mod Z.abs d <= Z.abs z) by (apply Z.mod_le; lia).
  destruct (Z.sgn_spec z) as [[? ->] | [[? ->] | [? ->]]];
    destruct (is_signed A); lia.
Qed.

Lemma common_type_bits (A K : int_type) : bits A <= bits (common_type A K).
Proof. destruct A as [[] []], K as [[] []]; vm_compute; discriminate. Qed.

Lemma cast_cast_wider (A B : int_type) (z : Z) :
  bits A <= bits B -> cast A (cast B z) = cast A z.
Proof.
  intros Hle. destruct (cast_diff B z) as [k Hk]. rewrite Hk.
  pose proof (bits_pos A) as Hb.
  replace (2 ^ bits B) with (2 ^ (bits B - bits A) * 2 ^ bits A)
    by (rewrite <- Z.pow_add_r by lia; f_equal; lia).
  rewrite Z.mul_assoc. apply cast_shift.
Qed.

(** C10.  [x % k] for an integer [k] converts [k] with the constructor
    [fixed(int_val)] and then takes the remainder of the raw fields: the
    result holds [raw_x] modulo [k << scale_bits], the remainder having the
    sign of [raw_x].  [x / k] instead divides [raw_x] by [k] itself, both
    converted to their common type and [k] unscaled.  The shift of the
    constructor and the two divisions are assumed to be defined. *)
Theorem remainder_by_integer_scales_divisor
    (c : config) (x : fixed c) (K : int_type) (k : Z) :
  shift_defined (T c) (scale_bits c) ->
  in_range (T c) (raw_data x) ->
  in_range K k ->
  div_defined (promote (T c)) (raw_data x)
    (cast (T c) (cast (T c) k * 2 ^ scale_bits c)) ->
  div_defined (common_type (T c) K)
    (cast (common_type (T c) K) (raw_data x)) (cast (common_type (T c) K) k) ->
  op_rem c x (IntArg K k) = rem_assign c x (from_integer c k) /\
  raw_data (op_rem c x (IntArg K k))
    = Z.rem (raw_data x) (cast (T c) (cast (T c) k * 2 ^ scale_bits c)) /\
  raw_data (op_div c x (IntArg K k))
    = cast (T c) (Z.quot (cast (common_type (T c) K) (raw_data x))
                    (cast (common_type (T c) K) k)).
Proof.
  intros Hdef Hx HK [Hd _] [_ Hq].
  pose proof (shift_defined_nonneg _ _ Hdef) as Hs.
  split; [reflexivity |]. split.
  - cbn [op_rem rem_assign from_integer raw_data].
    rewrite Z.shiftl_mul_pow2 by exact Hs.
    apply cast_in_range, in_range_rem; assumption.
  - cbn [op_div div_assign_int raw_data].
    apply cast_cast_wider, common_type_bits.
Qed.

Lemma remainder_by_integer_scales_divisor_witness :
  let x : fixed fixed_i32_16 := Fixed (-327680) in
  in_range int32_t (raw_data x) /\
  raw_data (op_rem fixed_i32_16 x (IntArg uint32_t 3)) = Z.rem (-327680) 196608 /\
  raw_data (op_div fixed_i32_16 x (IntArg uint32_t 3)) = 1431546538.
Proof.
  intros x. unfold x.
  assert (Hs : shift_defined (T fixed_i32_16) (scale_bits fixed_i32_16))
    by solve_range.
  assert (Hx : in_range (T fixed_i32_16) (raw_data (@Fixed fixed_i32_16 (-327680))))
    by solve_range.
  assert (HK : in_range uint32_t 3) by solve_range.
  assert (Hr : div_defined (promote (T fixed_i32_16))
                 (raw_data (@Fixed fixed_i32_16 (-327680)))
                 (cast (T fixed_i32_16)
                    (cast (T fixed_i32_16) 3 * 2 ^ scale_bits fixed_i32_16)))
    by solve_range.
  assert (Hq : div_defined (common_type (T fixed_i32_16) uint32_t)
                 (cast (common_type (T fixed_i32_16) uint32_t)
                    (raw_data (@Fixed fixed_i32_16 (-327680))))
                 (cast (common_type (T fixed_i32_16) uint32_t) 3))
    by solve_range.
  destruct (remainder_by_integer_scales_divisor fixed_i32_16 (Fixed (-327680))
              uint32_t 3 Hs Hx HK Hr Hq) as (_ & Hrem & Hdiv).
  split; [exact Hx | split; [exact Hrem | exact Hdiv]].
Defined.

(** ** The scenarios of the README, [fixed<uint32_t, 16>] *)

Example readme_one : raw_data (from_integer fixed_u32_16 1) = 65536.
Proof. reflexivity. Qed.

Example readme_sixteenth : raw_data (from_scaled fixed_u32_16 1 4) = 4096.
Proof. reflexivity. Qed.

Example readme_division :
  to_integer fixed_u32_16 uint32_t
    (op_div fixed_u32_16 (from_integer fixed_u32_16 13)
       (FixedArg (from_scaled fixed_u32_16 1 4))) = 208.
Proof. reflexivity. Qed.

Example readme_shift :
  op_shl fixed_u32_16 (from_integer fixed_u32_16 1) (IntArg int32_t 6)
  = Some (from_integer fixed_u32_16 64).
Proof. reflexivity. Qed.

Example readme_negative :
  raw_data (from_scaled (Config int32_t 6 false int32_t) (-5) 6) = -5.
Proof. reflexivity. Qed.

(** [5 % 3] is [2] in fixed point, where the raw fields give
    [327680 % 196608 = 131072]; the raw field modulo [3] would be [2]. *)
Example remainder_of_five_by_three :
  op_rem fixed_u32_16 (from_integer fixed_u32_16 5) (IntArg int32_t 3)
  = from_integer fixed_u32_16 2.
Proof. reflexivity. Qed.

(** The fast strategy with [int64_t] as the cast type. *)
Example fast_multiplication :
  raw_data (op_mul fixed_i32_16_fast (from_integer fixed_i32_16_fast (-3))
              (FixedArg (from_integer fixed_i32_16_fast 5))) = -983040.
Proof. reflexivity. Qed.

(** * Further properties of the operators *)

(** ** Arithmetic modulo [2 ^ bits] *)

Lemma cast_add_l (A : int_type) (x y : Z) : cast A (cast A x + y) = cast A (x + y).
Proof.
  destruct (cast_diff A x) as [k ->].
  replace (x + k * 2 ^ bits A + y) with (x + y + k * 2 ^ bits A) by ring.
  apply cast_shift.
Qed.

Lemma cast_add_r (A : int_type) (x y : Z) : cast A (x + cast A y) = cast A (x + y).
Proof. rewrite Z.add_comm, cast_add_l, Z.add_comm. reflexivity. Qed.

Lemma cast_sub_l (A : int_type) (x y : Z) : cast A (cast A x - y) = cast A (x - y).
Proof. unfold Z.sub. apply cast_add_l. Qed.

Lemma cast_sub_r (A : int_type) (x y : Z) : cast A (x - cast A y) = cast A (x - y).
Proof.
  destruct (cast_diff A y) as [k ->].
  replace (x - (y + k * 2 ^ bits A)) with (x - y + (- k) * 2 ^ bits A) by ring.
  apply cast_shift.
Qed.

Lemma cast_mul_l (A : int_type) (x y : Z) : cast A (cast A x * y) = cast A (x * y).
Proof.
  destruct (cast_diff A x) as [k ->].
  replace ((x + k * 2 ^ bits A) * y) with (x * y + (k * y) * 2 ^ bits A) by ring.
  apply cast_shift.
Qed.

Lemma cast_mul_r (A : int_type) (x y : Z) : cast A (x * cast A y) = cast A (x * y).
Proof. rewrite Z.mul_comm, cast_mul_l, Z.mul_comm. reflexivity. Qed.


Lemma cast_zero (A : int_type) : cast A 0 = 0.
Proof. destruct A as [[] []]; reflexivity. Qed.

(** ** Addition and subtraction (lines 85-88, 100-101, 247-248) *)

(** X1.  Addition wraps like the internal type and so forms a commutative
    group on the raw values: it commutes and associates whatever the
    operands, [x + (-x)] is the default (zero) value, and [a - b] is
    [a + (-b)]. *)
Theorem addition_group_laws (c : config) (x y z : fixed c) :
  op_add c x (FixedArg y) = op_add c y (FixedArg x) /\
  op_add c (op_add c x (FixedArg y)) (FixedArg z)
    = op_add c x (FixedArg (op_add c y (FixedArg z))) /\
  op_add c x (FixedArg (neg c x)) = fixed_default c /\
  op_sub c x (FixedArg y) = op_add c x (FixedArg (neg c y)).
Proof.
  unfold op_add, op_sub, add_assign, sub_assign, neg, fixed_default, to_fixed.
  cbn [raw_data]. repeat split; f_equal.
  - rewrite Z.add_comm. reflexivity.
  - rewrite cast_add_l, cast_add_r, Z.add_assoc. reflexivity.
  - rewrite cast_add_r, Z.add_opp_diag_r. apply cast_zero.
  - rewrite cast_add_r. reflexivity.
Qed.

(** X2.  Adding and then subtracting the same value gives the starting
    value back, also when the sum wraps; likewise subtracting and then
    adding. *)
Theorem add_sub_round_trip (c : config) (a b : fixed c) :
  in_range (T c) (raw_data a) ->
  op_sub c (op_add c a (FixedArg b)) (FixedArg b) = a /\
  op_add c (op_sub c a (FixedArg b)) (FixedArg b) = a.
Proof.
  intros Ha. destruct a as [ra]. cbn [raw_data] in Ha.
  unfold op_add, op_sub, add_assign, sub_assign, to_fixed. cbn [raw_data].
  split; f_equal.
  - rewrite cast_sub_l. replace (ra + raw_data b - raw_data b) with ra by ring.
    apply cast_in_range. exact Ha.
  - rewrite cast_add_l. replace (ra - raw_data b + raw_data b) with ra by ring.
    apply cast_in_range. exact Ha.
Qed.

Lemma add_sub_round_trip_witness :
  in_range uint32_t 4294967295 /\
  op_sub fixed_u32_16 (op_add fixed_u32_16 (Fixed 4294967295) (FixedArg (Fixed 65536)))
    (FixedArg (Fixed 65536)) = Fixed 4294967295.
Proof.
  assert (Ha : in_range (T fixed_u32_16) (raw_data (@Fixed fixed_u32_16 4294967295)))
    by solve_range.
  split; [exact Ha |].
  exact (proj1 (add_sub_round_trip fixed_u32_16 (Fixed 4294967295) (Fixed 65536) Ha)).
Defined.

(** X3.  The operators with the integer on the left agree with the member
    operators: [k + a == a + k] and [k - a == -(a - k)], the integer being
    converted by the constructor in each of them. *)
Theorem integer_left_addition (c : config) (K : int_type) (k : Z) (a : fixed c) :
  int_add c k a = op_add c a (IntArg K k) /\
  int_sub c k a = neg c (op_sub c a (IntArg K k)).
Proof.
  unfold int_add, int_sub, op_add, op_sub, add_assign, sub_assign, neg, to_fixed.
  cbn [raw_data]. split; f_equal.
  - rewrite Z.add_comm. reflexivity.
  - rewrite cast_opp_cast by reflexivity. f_equal. ring.
Qed.

(** ** Multiplication beyond the representable range, and by an integer *)

Section MultiplicationWraps.

Variable c : config.

Hypothesis scale_ok : 0 <= scale_bits c <= bits (T c).


End MultiplicationWraps.



Lemma cast_diff_wider (A B : int_type) (z : Z) :
  bits A <= bits B -> exists k, cast B z = z + k * 2 ^ bits A.
Proof.
  intros Hle. destruct (cast_diff B z) as [k Hk].
  pose proof (bits_pos A) as Hb.
  exists (k * 2 ^ (bits B - bits A)). rewrite Hk, <- Z.mul_assoc.
  rewrite <- Z.pow_add_r by lia. do 3 f_equal. lia.
Qed.

(** [raw_data *= k] in the common type of [T] and of the type of [k]. *)
Lemma mul_in_common_type (A C : int_type) (x k : Z) :
  bits A <= bits C ->
  cast A (cast C (cast C x * cast C k)) = cast A (x * k).
Proof.
  intros Hle. rewrite cast_cast_wider by exact Hle.
  destruct (cast_diff_wider A C x Hle) as [i ->].
  destruct (cast_diff_wider A C k Hle) as [j ->].
  replace ((x + i * 2 ^ bits A) * (k + j * 2 ^ bits A))
    with (x * k + (x * j + i * k + i * j * 2 ^ bits A) * 2 ^ bits A) by ring.
  apply cast_shift.
Qed.

(** X5.  Multiplying by an integer stores [raw_data * k] reduced into [T],
    whatever the integral type of [k] (promotion and the usual arithmetic
    conversions do not change the result), and a left shift by [m] bits,
    [m] a defined shift count for [T], is the multiplication by the
    integer [2 ^ m]. *)
Theorem integer_multiplication_wraps
    (c : config) (x : fixed c) (K K' : int_type) (k m : Z) :
  shift_defined (T c) m ->
  raw_data (op_mul c x (IntArg K k)) = cast (T c) (raw_data x * k) /\
  op_shl c x (IntArg K m) = Some (op_mul c x (IntArg K' (2 ^ m))).
Proof.
  intros Hdef. pose proof (shift_defined_nonneg _ _ Hdef) as Hm.
  cbn [op_mul op_shl integer_or_T].
  unfold mul_assign_int, shl_assign. cbn [raw_data].
  rewrite !mul_in_common_type by apply common_type_bits.
  rewrite Z.shiftl_mul_pow2 by exact Hm. split; reflexivity.
Qed.

Lemma integer_multiplication_wraps_witness :
  shift_defined uint32_t 6 /\
  raw_data (op_mul fixed_u32_16 (Fixed 65536) (IntArg int64_t (-3))) = 4294770688 /\
  op_shl fixed_u32_16 (Fixed 65536) (IntArg int32_t 6)
  = Some (op_mul fixed_u32_16 (Fixed 65536) (IntArg uint8_t (2 ^ 6))).
Proof.
  assert (Hm : shift_defined (T fixed_u32_16) 6) by solve_range.
  split; [exact Hm |].
  exact (integer_multiplication_wraps fixed_u32_16 (Fixed 65536)
           int64_t uint8_t (-3) 6 Hm).
Defined.

(** ** Integers inside the fixed-point type *)

Lemma from_integer_raw (c : config) (v : Z) :
  0 <= scale_bits c ->
  raw_data (from_integer c v) = cast (T c) (v * 2 ^ scale_bits c).
Proof.
  intros Hs. unfold from_integer. cbn [raw_data].
  rewrite Z.shiftl_mul_pow2 by exact Hs. apply cast_mul_l.
Qed.

Lemma from_integer_exact (c : config) (v : Z) :
  0 <= scale_bits c -> in_range (T c) (v * 2 ^ scale_bits c) ->
  raw_data (from_integer c v) = v * 2 ^ scale_bits c.
Proof.
  intros Hs Hv. rewrite from_integer_raw by exact Hs. apply cast_in_range, Hv.
Qed.

Lemma fixed_eq (c : config) (x y : fixed c) : raw_data x = raw_data y -> x = y.
Proof. destruct x, y. cbn [raw_data]. intros ->. reflexivity. Qed.



(** X7.  Under the safe strategy every nonzero value divided by itself is
    [1], whenever [1] is representable. *)
Theorem self_division_is_one (c : config) (a : fixed c) :
  fast_multdiv c = false ->
  0 <= scale_bits c <= bits (T c) ->
  in_range (T c) (raw_data a) -> raw_data a <> 0 ->
  in_range (T c) (2 ^ scale_bits c) ->
  op_div c a (FixedArg a) = from_integer c 1.
Proof.
  intros Hsafe Hs Ha Hnz H1.
  pose proof (pow2_pos (scale_bits c) ltac:(lia)) as Hp.
  apply fixed_eq. rewrite from_integer_exact; rewrite ?Z.mul_1_l; [| lia | exact H1].
  cbn [op_div]. unfold div_assign. rewrite Hsafe. cbn [raw_data].
  assert (Hq : Z.quot (raw_data a * 2 ^ scale_bits c) (raw_data a) = 2 ^ scale_bits c)
    by (rewrite Z.mul_comm; apply Z.quot_mul; exact Hnz).
  rewrite div_safe_spec; rewrite ?Hq; auto.
Qed.

Lemma self_division_is_one_witness :
  in_range int32_t (-7) /\ -7 <> 0 /\ in_range int32_t (2 ^ 16) /\
  op_div fixed_i32_16 (Fixed (-7)) (FixedArg (Fixed (-7))) = from_integer fixed_i32_16 1.
Proof.
  assert (Hs : 0 <= scale_bits fixed_i32_16 <= bits (T fixed_i32_16)) by solve_range.
  assert (Ha : in_range (T fixed_i32_16) (raw_data (@Fixed fixed_i32_16 (-7))))
    by solve_range.
  assert (Hn : raw_data (@Fixed fixed_i32_16 (-7)) <> 0) by solve_range.
  assert (H1 : in_range (T fixed_i32_16) (2 ^ scale_bits fixed_i32_16)) by solve_range.
  split; [exact Ha | split; [exact Hn | split; [exact H1 |]]].
  exact (self_division_is_one fixed_i32_16 (Fixed (-7)) eq_refl Hs Ha Hn H1).
Defined.



(** X9.  The integer overload of [/=] is consistent with the long
    division: for a nonzero [k] with [k << scale_bits] representable, and
    operands that the common type of [T] and of the type of [k] holds,
    [a / k] equals [a / fixed(k)] under the safe strategy. *)
Theorem integer_division_consistent
    (c : config) (a : fixed c) (K : int_type) (k : Z) :
  fast_multdiv c = false ->
  0 <= scale_bits c <= bits (T c) ->
  in_range (T c) (raw_data a) ->
  k <> 0 ->
  in_range (T c) (k * 2 ^ scale_bits c) ->
  in_range (common_type (T c) K) (raw_data a) ->
  in_range (common_type (T c) K) k ->
  in_range (T c) (Z.quot (raw_data a) k) ->
  op_div c a (IntArg K k) = op_div c a (FixedArg (from_integer c k)).
Proof.
  intros Hsafe Hs Ha Hnz Hk HCa HCk Hq.
  pose proof (pow2_pos (scale_bits c) ltac:(lia)) as Hp.
  assert (Hcancel : Z.quot (raw_data a * 2 ^ scale_bits c) (k * 2 ^ scale_bits c)
                    = Z.quot (raw_data a) k)
    by (apply Z.quot_mul_cancel_r; lia).
  apply fixed_eq. cbn [op_div]. unfold div_assign, div_assign_int.
  rewrite Hsafe. cbn [raw_data].
  rewrite (cast_in_range _ _ HCa), (cast_in_range _ _ HCk).
  rewrite cast_cast_wider by apply common_type_bits.
  rewrite (cast_in_range _ _ Hq).
  rewrite from_integer_exact by (try lia; exact Hk).
  rewrite div_safe_spec; rewrite ?Hcancel; auto. nia.
Qed.

Lemma integer_division_consistent_witness :
  in_range int32_t (-65536) /\ in_range int32_t (31 * 2 ^ 16) /\
  op_div fixed_i32_16 (Fixed (-65536)) (IntArg int32_t 31)
  = op_div fixed_i32_16 (Fixed (-65536)) (FixedArg (from_integer fixed_i32_16 31)).
Proof.
  assert (Hs : 0 <= scale_bits fixed_i32_16 <= bits (T fixed_i32_16)) by solve_range.
  assert (Ha : in_range (T fixed_i32_16) (raw_data (@Fixed fixed_i32_16 (-65536))))
    by solve_range.
  assert (Hn : 31 <> 0) by solve_range.
  assert (Hk : in_range (T fixed_i32_16) (31 * 2 ^ scale_bits fixed_i32_16))
    by solve_range.
  assert (HCa : in_range (common_type (T fixed_i32_16) int32_t)
                  (raw_data (@Fixed fixed_i32_16 (-65536)))) by solve_range.
  assert (HCk : in_range (common_type (T fixed_i32_16) int32_t) 31) by solve_range.
  assert (Hq : in_range (T fixed_i32_16)
                 (Z.quot (raw_data (@Fixed fixed_i32_16 (-65536))) 31)) by solve_range.
  split; [exact Ha | split; [exact Hk |]].
  exact (integer_division_consistent fixed_i32_16 (Fixed (-65536)) int32_t 31
           eq_refl Hs Ha Hn Hk HCa HCk Hq).
Defined.

(** X10.  The constructor from an integer is compatible with addition,
    subtraction and negation for all integers, wrap-around included:
    [fixed(v) + fixed(w) == fixed(v + w)], [fixed(v) - fixed(w) ==
    fixed(v - w)] and [-fixed(v) == fixed(-v)]. *)
Theorem from_integer_additive (c : config) (v w : Z) :
  0 <= scale_bits c ->
  op_add c (from_integer c v) (FixedArg (from_integer c w)) = from_integer c (v + w) /\
  op_sub c (from_integer c v) (FixedArg (from_integer c w)) = from_integer c (v - w) /\
  neg c (from_integer c v) = from_integer c (- v).
Proof.
  intros Hs. repeat split; apply fixed_eq;
    unfold op_add, op_sub, add_assign, sub_assign, neg, to_fixed; cbn [raw_data];
    rewrite !from_integer_raw by exact Hs.
  - rewrite cast_add_l, cast_add_r. f_equal. ring.
  - rewrite cast_sub_l, cast_sub_r. f_equal. ring.
  - rewrite cast_opp_cast by reflexivity. f_equal. ring.
Qed.

Lemma from_integer_additive_witness :
  0 <= scale_bits fixed_u32_16 /\
  op_add fixed_u32_16 (from_integer fixed_u32_16 65535)
    (FixedArg (from_integer fixed_u32_16 2)) = from_integer fixed_u32_16 65537.
Proof.
  assert (Hs : 0 <= scale_bits fixed_u32_16) by solve_range.
  split; [exact Hs |].
  exact (proj1 (from_integer_additive fixed_u32_16 65535 2 Hs)).
Defined.



(** ** Ordering, conversion and limits *)

(** X12.  The constructor from an integer preserves the order: for
    integers whose scaled value is representable, [fixed(v) <=> fixed(w)]
    is the comparison of [v] with [w], and [==] holds exactly for [v = w]. *)
Theorem from_integer_preserves_order (c : config) (v w : Z) :
  0 <= scale_bits c ->
  in_range (T c) (v * 2 ^ scale_bits c) ->
  in_range (T c) (w * 2 ^ scale_bits c) ->
  three_way c (from_integer c v) (from_integer c w) = Z.compare v w /\
  op_eq c (from_integer c v) (from_integer c w) = (v =? w).
Proof.
  intros Hs Hv Hw. pose proof (pow2_pos (scale_bits c) Hs) as Hp.
  unfold three_way, op_eq. rewrite !from_integer_exact by assumption.
  assert (Hc : (v * 2 ^ scale_bits c ?= w * 2 ^ scale_bits c) = (v ?= w))
    by (symmetry; apply Zmult_compare_compat_r; lia).
  split; [exact Hc |].
  rewrite !Z.eqb_compare, Hc. reflexivity.
Qed.

Lemma from_integer_preserves_order_witness :
  in_range int32_t (-3 * 2 ^ 16) /\ in_range int32_t (2 * 2 ^ 16) /\
  three_way fixed_i32_16 (from_integer fixed_i32_16 (-3)) (from_integer fixed_i32_16 2)
  = Lt.
Proof.
  assert (Hs : 0 <= scale_bits fixed_i32_16) by solve_range.
  assert (Hv : in_range (T fixed_i32_16) (-3 * 2 ^ scale_bits fixed_i32_16))
    by solve_range.
  assert (Hw : in_range (T fixed_i32_16) (2 * 2 ^ scale_bits fixed_i32_16))
    by solve_range.
  split; [exact Hv | split; [exact Hw |]].
  exact (proj1 (from_integer_preserves_order fixed_i32_16 (-3) 2 Hs Hv Hw)).
Defined.

(** X13.  The conversion to an integer type that holds [raw_data], with a
    scale that is a defined shift count for that type, rounds toward
    negative infinity: the result [r] is the integer with
    [r * 2 ^ scale_bits <= raw_data < (r + 1) * 2 ^ scale_bits], so a
    negative value with a fractional part converts to the integer below
    it. *)
Theorem to_integer_rounds_down (c : config) (T2 : int_type) (x : fixed c) :
  shift_defined T2 (scale_bits c) ->
  in_range T2 (raw_data x) ->
  to_integer c T2 x = raw_data x / 2 ^ scale_bits c /\
  to_integer c T2 x * 2 ^ scale_bits c <= raw_data x
    < (to_integer c T2 x + 1) * 2 ^ scale_bits c.
Proof.
  intros Hdef Hx. pose proof (shift_defined_nonneg _ _ Hdef) as Hs.
  pose proof (pow2_pos (scale_bits c) Hs) as Hp.
  assert (E : to_integer c T2 x = raw_data x / 2 ^ scale_bits c).
  { rewrite to_integer_wide_target, Z.shiftr_div_pow2 by assumption.
    apply cast_in_range, in_range_div; assumption. }
  split; [exact E |]. rewrite E.
  pose proof (Z.div_mod (raw_data x) (2 ^ scale_bits c) ltac:(lia)) as Hdm.
  pose proof (Z.mod_pos_bound (raw_data x) (2 ^ scale_bits c) Hp) as Hm.
  lia.
Qed.

Lemma to_integer_rounds_down_witness :
  in_range int64_t (-32768) /\
  to_integer fixed_i32_16 int64_t (Fixed (-32768)) = -1.
Proof.
  assert (Hs : shift_defined int64_t (scale_bits fixed_i32_16)) by solve_range.
  assert (Hx : in_range int64_t (raw_data (@Fixed fixed_i32_16 (-32768))))
    by solve_range.
  split; [exact Hx |].
  exact (proj1 (to_integer_rounds_down fixed_i32_16 int64_t (Fixed (-32768)) Hs Hx)).
Defined.

(** X21.  The round trip from an integer and back holds for every target
    type that holds the raw field: if [v << scale_bits] is representable
    in [T] and in the target type, converting [fixed(v)] gives [v]. *)
Theorem round_trip_wide_target (c : config) (T2 : int_type) (v : Z) :
  0 <= scale_bits c ->
  in_range (T c) (v * 2 ^ scale_bits c) ->
  in_range T2 (v * 2 ^ scale_bits c) ->
  to_integer c T2 (from_integer c v) = v.
Proof.
  intros Hs Hv Hv2. pose proof (pow2_pos (scale_bits c) Hs) as Hp.
  assert (Hraw : raw_data (from_integer c v) = v * 2 ^ scale_bits c)
    by (apply from_integer_exact; assumption).
  rewrite to_integer_wide_target by (rewrite Hraw; exact Hv2).
  rewrite Hraw, Z.shiftr_div_pow2, Z.div_mul by lia.
  apply cast_in_range.
  rewrite <- (Z.div_mul v (2 ^ scale_bits c)) by lia.
  apply in_range_div; assumption.
Qed.

Lemma round_trip_wide_target_witness :
  in_range uint32_t (40000 * 2 ^ 16) /\ in_range int64_t (40000 * 2 ^ 16) /\
  to_integer fixed_u32_16 int64_t (from_integer fixed_u32_16 40000) = 40000.
Proof.
  assert (Hs : 0 <= scale_bits fixed_u32_16) by solve_range.
  assert (Hv : in_range (T fixed_u32_16) (40000 * 2 ^ scale_bits fixed_u32_16))
    by solve_range.
  assert (Hv2 : in_range int64_t (40000 * 2 ^ scale_bits fixed_u32_16)) by solve_range.
  split; [exact Hv | split; [exact Hv2 |]].
  exact (round_trip_wide_target fixed_u32_16 int64_t 40000 Hs Hv Hv2).
Defined.

(** X14.  Re-expressing the same fraction at a finer scale builds the same
    value: [fixed(v << k, scale + k) == fixed(v, scale)] whenever
    [scale + k] does not exceed [scale_bits]; and shifting [fixed(v, scale)]
    left by [scale] gives [fixed(v)].  The scale of the type is a defined
    shift count for [T], and so is every shift count here. *)
Theorem from_scaled_rescale (c : config) (K : int_type) (v scale k : Z) :
  0 <= k -> 0 <= scale ->
  scale + k <= scale_bits c -> shift_defined (T c) (scale_bits c) ->
  from_scaled c (v * 2 ^ k) (scale + k) = from_scaled c v scale /\
  raw_data (from_scaled c v scale) = cast (T c) (v * 2 ^ (scale_bits c - scale)) /\
  op_shl c (from_scaled c v scale) (IntArg K scale) = Some (from_integer c v).
Proof.
  intros Hk Hsc Hle Hdef. pose proof (shift_defined_size _ _ Hdef) as Hmax.
  assert (Hsub : forall s, 0 <= s <= scale_bits c ->
                           size_sub (scale_bits c) s = scale_bits c - s)
    by (intros s Hs; unfold size_sub; apply Z.mod_small; lia).
  assert (Hraw : forall u s, 0 <= s <= scale_bits c ->
            raw_data (from_scaled c u s) = cast (T c) (u * 2 ^ (scale_bits c - s))).
  { intros u s Hs. unfold from_scaled. cbn [raw_data].
    rewrite Hsub, Z.shiftl_mul_pow2 by lia. apply cast_mul_l. }
  split; [| split].
  - apply fixed_eq. rewrite !Hraw by lia. f_equal.
    rewrite <- Z.mul_assoc, <- Z.pow_add_r by lia. do 2 f_equal. lia.
  - apply Hraw. lia.
  - cbn [op_shl integer_or_T]. f_equal. apply fixed_eq.
    unfold shl_assign. cbn [raw_data].
    rewrite Hraw, from_integer_raw, Z.shiftl_mul_pow2 by lia.
    rewrite cast_mul_l. f_equal.
    rewrite <- Z.mul_assoc, <- Z.pow_add_r by lia. do 2 f_equal. lia.
Qed.

Lemma from_scaled_rescale_witness :
  0 <= 2 /\ 0 <= 4 /\ 4 + 2 <= scale_bits fixed_u32_16 /\
  from_scaled fixed_u32_16 (3 * 2 ^ 2) (4 + 2) = from_scaled fixed_u32_16 3 4 /\
  op_shl fixed_u32_16 (from_scaled fixed_u32_16 3 4) (IntArg int32_t 4)
  = Some (from_integer fixed_u32_16 3).
Proof.
  assert (Hk : 0 <= 2) by solve_range.
  assert (Hsc : 0 <= 4) by solve_range.
  assert (Hle : 4 + 2 <= scale_bits fixed_u32_16) by solve_range.
  assert (Hmax : shift_defined (T fixed_u32_16) (scale_bits fixed_u32_16))
    by solve_range.
  split; [exact Hk | split; [exact Hsc | split; [exact Hle |]]].
  destruct (from_scaled_rescale fixed_u32_16 int32_t 3 4 2 Hk Hsc Hle Hmax)
    as (H1 & _ & H3).
  split; [exact H1 | exact H3].
Defined.

(** ** Shifts *)

(** X15.  A left shift that does not overflow is undone by the right
    shift by the same amount; a right shift followed by the left shift
    clears the [k] low bits of [raw_data]. *)
Theorem shift_round_trip (c : config) (x : fixed c) (K : int_type) (k : Z) :
  0 <= k ->
  in_range (T c) (raw_data x) ->
  in_range (T c) (raw_data x * 2 ^ k) ->
  op_shr c (shl_assign c x k) (IntArg K k) = Some x /\
  op_shl c (shr_assign c x k) (IntArg K k)
    = Some (Fixed (raw_data x - raw_data x mod 2 ^ k)).
Proof.
  intros Hk Hx Hsh. pose proof (pow2_pos k Hk) as Hp.
  cbn [op_shr op_shl integer_or_T]. unfold shl_assign, shr_assign. cbn [raw_data].
  rewrite !Z.shiftl_mul_pow2, !Z.shiftr_div_pow2 by exact Hk.
  rewrite (cast_in_range _ _ Hsh), Z.div_mul by lia.
  rewrite (cast_in_range _ _ Hx).
  rewrite (cast_in_range _ (raw_data x / 2 ^ k)) by (apply in_range_div; assumption).
  assert (E : raw_data x / 2 ^ k * 2 ^ k = raw_data x - raw_data x mod 2 ^ k).
  { pose proof (Z.div_mod (raw_data x) (2 ^ k) ltac:(lia)). lia. }
  rewrite E. split; [destruct x; reflexivity |].
  do 2 f_equal. apply cast_in_range.
  pose proof (Z.mod_pos_bound (raw_data x) (2 ^ k) Hp) as Hm.
  pose proof (Z.div_mod (raw_data x) (2 ^ k) ltac:(lia)) as Hdm.
  destruct Hx as [Hlo Hhi]. destruct Hsh as [Hlo' Hhi'].
  split; [| lia].
  (* the lower bound: a multiple of 2^k between raw*2^k's sign and raw *)
  destruct (Z.le_gt_cases 0 (raw_data x)) as [Hnn | Hneg].
  - assert (0 <= raw_data x / 2 ^ k) by (apply Z.div_pos; lia).
    assert (numeric_min (T c) <= 0)
      by (unfold numeric_min; destruct (is_signed (T c));
          [pose proof (pow2_pos (bits (T c) - 1) ltac:(pose proof (bits_pos (T c)); lia)); lia
          | lia]).
    nia.
  - assert (raw_data x * 2 ^ k <= raw_data x - raw_data x mod 2 ^ k) by nia.
    lia.
Qed.

Lemma shift_round_trip_witness :
  0 <= 6 /\ in_range int32_t (-65537) /\ in_range int32_t (-65537 * 2 ^ 6) /\
  op_shr fixed_i32_16 (shl_assign fixed_i32_16 (Fixed (-65537)) 6) (IntArg int32_t 6)
  = Some (Fixed (-65537)) /\
  op_shl fixed_i32_16 (shr_assign fixed_i32_16 (Fixed (-65537)) 6) (IntArg int32_t 6)
  = Some (Fixed (-65600)).
Proof.
  assert (Hk : 0 <= 6) by solve_range.
  assert (Hx : in_range (T fixed_i32_16) (raw_data (@Fixed fixed_i32_16 (-65537))))
    by solve_range.
  assert (Hsh : in_range (T fixed_i32_16)
                  (raw_data (@Fixed fixed_i32_16 (-65537)) * 2 ^ 6)) by solve_range.
  split; [exact Hk | split; [exact Hx | split; [exact Hsh |]]].
  exact (shift_round_trip fixed_i32_16 (Fixed (-65537)) int32_t 6 Hk Hx Hsh).
Defined.

(** ** Bitwise operators (lines 93-96, 241-243) *)

Lemma cast_mod_eq (A : int_type) (z : Z) :
  cast A z mod 2 ^ bits A = z mod 2 ^ bits A.
Proof.
  destruct (cast_diff A z) as [k ->].
  apply Z.mod_add, Z.pow_nonzero; pose proof (bits_pos A); lia.
Qed.

Lemma lor_mod_pow2 (x y n : Z) :
  0 <= n -> Z.lor x y mod 2 ^ n = Z.lor (x mod 2 ^ n) (y mod 2 ^ n).
Proof.
  intros Hn. rewrite <- !Z.land_ones by exact Hn. apply Z.land_lor_distr_l.
Qed.

Lemma land_mod_pow2 (x y n : Z) :
  0 <= n -> Z.land x y mod 2 ^ n = Z.land (x mod 2 ^ n) (y mod 2 ^ n).
Proof.
  intros Hn. rewrite <- !Z.land_ones by exact Hn.
  apply Z.bits_inj'. intros i Hi. rewrite !Z.land_spec.
  destruct (Z.testbit x i), (Z.testbit y i), (Z.testbit (Z.ones n) i); reflexivity.
Qed.

Lemma cast_lor (A : int_type) (x y : Z) :
  cast A (Z.lor (cast A x) (cast A y)) = cast A (Z.lor x y).
Proof.
  pose proof (bits_pos A) as Hb. apply cast_congr.
  rewrite !lor_mod_pow2, !cast_mod_eq by lia. reflexivity.
Qed.

Lemma cast_land (A : int_type) (x y : Z) :
  cast A (Z.land (cast A x) (cast A y)) = cast A (Z.land x y).
Proof.
  pose proof (bits_pos A) as Hb. apply cast_congr.
  rewrite !land_mod_pow2, !cast_mod_eq by lia. reflexivity.
Qed.

Lemma cast_lnot (A : int_type) (z : Z) : cast A (Z.lnot (cast A z)) = cast A (Z.lnot z).
Proof.
  rewrite !Z.lnot_eq_pred_opp.
  destruct (cast_diff A z) as [k ->].
  replace (- (z + k * 2 ^ bits A) - 1) with (- z - 1 + (- k) * 2 ^ bits A) by ring.
  apply cast_shift.
Qed.

Lemma epsilon_raw (c : config) : raw_data (limits_epsilon c) = 1.
Proof.
  unfold limits_epsilon, from_scaled. cbn [raw_data].
  rewrite size_sub_diag, Z.shiftl_0_r, cast_one. apply cast_one.
Qed.

(** X16.  The complement is an involution and satisfies De Morgan's laws
    with [&] and [|]; and negation is the complement plus one unit in the
    last place: [-x == ~x + epsilon()]. *)
Theorem complement_laws (c : config) (a b : fixed c) :
  in_range (T c) (raw_data a) ->
  bit_not c (bit_not c a) = a /\
  bit_not c (op_and c a (FixedArg b))
    = op_or c (bit_not c a) (FixedArg (bit_not c b)) /\
  bit_not c (op_or c a (FixedArg b))
    = op_and c (bit_not c a) (FixedArg (bit_not c b)) /\
  neg c a = op_add c (bit_not c a) (FixedArg (limits_epsilon c)).
Proof.
  intros Ha. repeat split; apply fixed_eq;
    unfold bit_not, op_and, op_or, and_assign, or_assign, op_add, add_assign,
      neg, to_fixed; cbn [raw_data].
  - rewrite cast_lnot, Z.lnot_involutive. apply cast_in_range, Ha.
  - rewrite cast_lnot, cast_lor, Z.lnot_land. reflexivity.
  - rewrite cast_lnot, cast_land, Z.lnot_lor. reflexivity.
  - rewrite epsilon_raw, cast_add_l, Z.lnot_eq_pred_opp. f_equal. ring.
Qed.

Lemma complement_laws_witness :
  in_range uint32_t 65536 /\
  bit_not fixed_u32_16 (bit_not fixed_u32_16 (Fixed 65536)) = Fixed 65536 /\
  neg fixed_u32_16 (Fixed 65536)
  = op_add fixed_u32_16 (bit_not fixed_u32_16 (Fixed 65536))
      (FixedArg (limits_epsilon fixed_u32_16)).
Proof.
  assert (Ha : in_range (T fixed_u32_16) (raw_data (@Fixed fixed_u32_16 65536)))
    by solve_range.
  split; [exact Ha |].
  destruct (complement_laws fixed_u32_16 (Fixed 65536) (Fixed 0) Ha)
    as (H1 & _ & _ & H4).
  split; [exact H1 | exact H4].
Defined.

(** ** The fast strategy (lines 168, 223) *)

(** X17.  Under the fast strategy, when the cast type holds both raw
    fields and their product and the scale is a defined shift count for
    it, multiplication stores the exact product shifted right
    arithmetically, that is rounded toward negative infinity (the safe
    strategy truncates toward zero). *)
Theorem fast_multiplication_rounds_down (c : config) (a b : fixed c) :
  fast_multdiv c = true ->
  shift_defined (multdiv_cast_type c) (scale_bits c) ->
  in_range (multdiv_cast_type c) (raw_data a) ->
  in_range (multdiv_cast_type c) (raw_data b) ->
  in_range (promote (multdiv_cast_type c)) (raw_data a * raw_data b) ->
  in_range (T c) (raw_data a * raw_data b / 2 ^ scale_bits c) ->
  raw_data (op_mul c a (FixedArg b)) = raw_data a * raw_data b / 2 ^ scale_bits c.
Proof.
  intros Hfast Hdef Ha Hb Hab Hfit. pose proof (shift_defined_nonneg _ _ Hdef) as Hs.
  cbn [op_mul]. unfold mul_assign, mul_fast.
  rewrite Hfast. cbn [raw_data].
  rewrite (cast_in_range _ _ Ha), (cast_in_range _ _ Hb), (cast_in_range _ _ Hab).
  rewrite Z.shiftr_div_pow2 by exact Hs. apply cast_in_range, Hfit.
Qed.

Lemma fast_multiplication_rounds_down_witness :
  in_range int64_t (-1) /\ in_range int64_t 1 /\ in_range int64_t (-1 * 1) /\
  in_range int32_t (-1 * 1 / 2 ^ 16) /\
  raw_data (op_mul fixed_i32_16_fast (Fixed (-1)) (FixedArg (Fixed 1))) = -1 /\
  Z.quot (-1 * 1) (2 ^ 16) = 0.
Proof.
  assert (Hs : shift_defined (multdiv_cast_type fixed_i32_16_fast)
                 (scale_bits fixed_i32_16_fast)) by solve_range.
  assert (Ha : in_range (multdiv_cast_type fixed_i32_16_fast)
                 (raw_data (@Fixed fixed_i32_16_fast (-1)))) by solve_range.
  assert (Hb : in_range (multdiv_cast_type fixed_i32_16_fast)
                 (raw_data (@Fixed fixed_i32_16_fast 1))) by solve_range.
  assert (Hab : in_range (promote (multdiv_cast_type fixed_i32_16_fast))
                  (raw_data (@Fixed fixed_i32_16_fast (-1))
                   * raw_data (@Fixed fixed_i32_16_fast 1))) by solve_range.
  assert (Hf : in_range (T fixed_i32_16_fast)
                 (raw_data (@Fixed fixed_i32_16_fast (-1))
                  * raw_data (@Fixed fixed_i32_16_fast 1)
                  / 2 ^ scale_bits fixed_i32_16_fast)) by solve_range.
  split; [exact Ha | split; [exact Hb | split; [exact Hab | split; [exact Hf |]]]].
  split; [| reflexivity].
  exact (fast_multiplication_rounds_down fixed_i32_16_fast (Fixed (-1)) (Fixed 1)
           eq_refl Hs Ha Hb Hab Hf).
Defined.


Lemma div_fast_quot (c : config) (x y : Z) :
  0 <= scale_bits c ->
  bits (T c) <= bits (promote (multdiv_cast_type c)) ->
  in_range (multdiv_cast_type c) x -> in_range (multdiv_cast_type c) y ->
  in_range (promote (multdiv_cast_type c)) (x * 2 ^ scale_bits c) ->
  div_fast c x y = cast (T c) (Z.quot (x * 2 ^ scale_bits c) y).
Proof.
  intros Hs Hw Hx Hy Hsh. unfold div_fast.
  rewrite (cast_in_range _ _ Hx), (cast_in_range _ _ Hy).
  rewrite Z.shiftl_mul_pow2 by exact Hs.
  rewrite (cast_in_range _ _ Hsh). apply cast_cast_wider, Hw.
Qed.



(** X19.  The two strategies agree on division: when the cast type is at
    least as wide as [T] and holds the operands and the dividend shifted
    left by [scale_bits], and the scale is at most the width of [T] and a
    defined shift count for [T] and for the cast type, the fast strategy
    stores the quotient truncated toward zero, which is what the safe
    strategy stores when it is representable. *)
Theorem strategies_agree_on_division
    (R W : int_type) (s x y : Z) :
  s <= bits R -> shift_defined R s -> shift_defined W s ->
  bits R <= bits (promote W) ->
  in_range R x -> in_range R y -> y <> 0 ->
  in_range W x -> in_range W y ->
  in_range (promote W) (x * 2 ^ s) ->
  in_range R (Z.quot (x * 2 ^ s) y) ->
  raw_data (op_div (Config R s true W) (Fixed x) (FixedArg (Fixed y)))
    = Z.quot (x * 2 ^ s) y /\
  raw_data (op_div (Config R s false W) (Fixed x) (FixedArg (Fixed y)))
    = Z.quot (x * 2 ^ s) y.
Proof.
  intros Hle HdR HdW Hw Hx Hy Hnz HWx HWy HWsh Hfit.
  pose proof (shift_defined_nonneg _ _ HdR) as Hs0.
  assert (Hs : 0 <= s <= bits R) by lia.
  cbn [op_div]. unfold div_assign. cbn [fast_multdiv raw_data]. split.
  - rewrite div_fast_quot by (cbn [scale_bits multdiv_cast_type T]; solve [lia | assumption]).
    apply cast_in_range, Hfit.
  - apply div_safe_spec; cbn [scale_bits T]; assumption.
Qed.

Lemma strategies_agree_on_division_witness :
  in_range int32_t (-851968) /\ in_range int32_t 4096 /\ 4096 <> 0 /\
  in_range int64_t (-851968 * 2 ^ 16) /\
  raw_data (op_div fixed_i32_16_fast (Fixed (-851968)) (FixedArg (Fixed 4096)))
  = -13631488 /\
  raw_data (op_div fixed_i32_16 (Fixed (-851968)) (FixedArg (Fixed 4096)))
  = -13631488.
Proof.
  assert (Hs : 16 <= bits int32_t) by solve_range.
  assert (HdR : shift_defined int32_t 16) by solve_range.
  assert (HdW : shift_defined int64_t 16) by solve_range.
  assert (Hw : bits int32_t <= bits (promote int64_t)) by solve_range.
  assert (Hx : in_range int32_t (-851968)) by solve_range.
  assert (Hy : in_range int32_t 4096) by solve_range.
  assert (Hn : 4096 <> 0) by solve_range.
  assert (HWx : in_range int64_t (-851968)) by solve_range.
  assert (HWy : in_range int64_t 4096) by solve_range.
  assert (HWsh : in_range (promote int64_t) (-851968 * 2 ^ 16)) by solve_range.
  assert (Hfit : in_range int32_t (Z.quot (-851968 * 2 ^ 16) 4096)) by solve_range.
  split; [exact Hx | split; [exact Hy | split; [exact Hn | split; [exact HWsh |]]]].
  exact (strategies_agree_on_division int32_t int64_t 16 (-851968) 4096
           Hs HdR HdW Hw Hx Hy Hn HWx HWy HWsh Hfit).
Defined.

(** ** Division by zero under the safe strategy (lines 197-219) *)

Section DivisionByZero.

Variable c : config.

(** With the divisor [0] the comparison of line 206 always succeeds, so
    every round shifts a one into [div_low]. *)
Lemma div_step_zero (hi lo : Z) :
  snd (div_step c 0 (hi, lo)) = (2 * lo + 1) mod 2 ^ bits (T c).
Proof.
  pose proof (bits_pos (T c)) as Hn.
  pose proof (pow2_pos (bits (T c)) ltac:(lia)) as Hp.
  unfold div_step. rewrite !cast_unsigned.
  assert (Hle : (0 <=? Z.lor
                   (Z.lor (Z.shiftl hi 1) (Z.shiftr lo (bits (T c) - 1)) mod 2 ^ bits (T c))
                   ((- Z.shiftr hi (bits (T c) - 1)) mod 2 ^ bits (T c))) = true).
  { apply Z.leb_le, Z.lor_nonneg. split; apply Z.mod_pos_bound; exact Hp. }
  rewrite Hle. cbn [snd].
  rewrite Z.shiftl_mul_pow2 by lia. change (2 ^ 1) with 2.
  rewrite Z.add_mod_idemp_l by lia. f_equal. ring.
Qed.

Lemma div_loop_zero (k : nat) :
  forall hi lo : Z,
    0 <= lo < 2 ^ bits (T c) ->
    snd (div_loop c k 0 (hi, lo))
    = (2 ^ Z.of_nat k * lo + 2 ^ Z.of_nat k - 1) mod 2 ^ bits (T c).
Proof.
  pose proof (bits_pos (T c)) as Hn.
  pose proof (pow2_pos (bits (T c)) ltac:(lia)) as Hp.
  induction k as [| k IH]; intros hi lo Hlo.
  - cbn [div_loop snd]. change (2 ^ Z.of_nat 0) with 1.
    replace (1 * lo + 1 - 1) with lo by ring. symmetry. apply Z.mod_small, Hlo.
  - cbn [div_loop].
    destruct (div_step c 0 (hi, lo)) as [hi' lo'] eqn:E.
    assert (Hlo' : lo' = (2 * lo + 1) mod 2 ^ bits (T c))
      by (rewrite <- div_step_zero with (hi := hi), E; reflexivity).
    rewrite IH by (rewrite Hlo'; apply Z.mod_pos_bound; exact Hp).
    rewrite Hlo'.
    rewrite Nat2Z.inj_succ, Z.pow_succ_r by lia.
    rewrite <- Z.add_sub_assoc, <- Z.add_mod_idemp_l, Z.mul_mod_idemp_r by lia.
    rewrite Z.add_mod_idemp_l by lia. f_equal. ring.
Qed.

Lemma div_safe_zero (x : Z) :
  div_safe c x 0
  = if is_signed (T c) && neg_flag c x then 1 else cast (T c) (-1).
Proof.
  pose proof (bits_pos (T c)) as Hn.
  pose proof (pow2_pos (bits (T c)) ltac:(lia)) as Hp.
  assert (Hone : 1 < 2 ^ bits (T c))
    by (rewrite (pow2_split _ Hn);
        pose proof (pow2_pos (bits (T c) - 1) ltac:(lia)); destruct (T c) as [[] ?];
        cbn in *; lia).
  assert (Hm0 : magnitude c 0 = 0).
  { unfold magnitude. rewrite cast_unsigned, Z.mod_0_l by lia.
    destruct (is_signed (T c)); [destruct (neg_flag c 0) |]; reflexivity. }
  assert (Hf0 : neg_flag c 0 = false).
  { unfold neg_flag. rewrite cast_unsigned, Z.mod_0_l, Z.shiftr_0_l by lia.
    reflexivity. }
  unfold div_safe. rewrite Hm0, Hf0, xorb_false_r.
  rewrite div_loop_zero by (rewrite cast_unsigned; apply Z.mod_pos_bound; exact Hp).
  rewrite Z2Nat.id by lia.
  assert (Hall : (2 ^ bits (T c)
                  * cast (make_unsigned (T c)) (Z.shiftl (magnitude c x) (scale_bits c))
                  + 2 ^ bits (T c) - 1) mod 2 ^ bits (T c) = 2 ^ bits (T c) - 1).
  { rewrite <- Z.add_sub_assoc, Z.add_comm, Z.mul_comm, Z.mod_add by lia.
    apply Z.mod_small. lia. }
  rewrite Hall.
  destruct (is_signed (T c) && neg_flag c x).
  - rewrite cast_unsigned.
    replace (- (2 ^ bits (T c) - 1)) with (1 + (-1) * 2 ^ bits (T c)) by ring.
    rewrite Z.mod_add, Z.mod_small by lia. apply cast_one.
  - replace (2 ^ bits (T c) - 1) with (-1 + 1 * 2 ^ bits (T c)) by ring.
    apply cast_shift.
Qed.

End DivisionByZero.

(** X20.  Under the safe strategy a division by the value zero does not
    fail and does not depend on the size of the dividend: every round of
    the loop shifts a one into the quotient, so an unsigned [T] receives
    its largest value, and a signed [T] receives the raw field [-1] for a
    dividend that is not negative and [1] for a negative one. *)
Theorem safe_division_by_zero (c : config) (a : fixed c) :
  fast_multdiv c = false ->
  in_range (T c) (raw_data a) ->
  raw_data (op_div c a (FixedArg (Fixed 0)))
  = if is_signed (T c)
    then (if raw_data a <? 0 then 1 else -1)
    else numeric_max (T c).
Proof.
  intros Hsafe Ha. cbn [op_div]. unfold div_assign. rewrite Hsafe. cbn [raw_data].
  rewrite div_safe_zero.
  destruct (is_signed (T c)) eqn:Hs; cbn [andb].
  - rewrite neg_flag_signed by assumption.
    destruct (raw_data a <? 0); [reflexivity |].
    apply cast_in_range. unfold in_range, numeric_min, numeric_max. rewrite Hs.
    pose proof (bits_pos (T c)) as Hn.
    pose proof (pow2_pos (bits (T c) - 1) ltac:(lia)). lia.
  - unfold cast, numeric_max. rewrite Hs.
    pose proof (bits_pos (T c)) as Hn.
    pose proof (pow2_pos (bits (T c)) ltac:(lia)) as Hp.
    replace (-1) with (2 ^ bits (T c) - 1 + (-1) * 2 ^ bits (T c)) by ring.
    rewrite Z.mod_add by lia. apply Z.mod_small. lia.
Qed.

Lemma safe_division_by_zero_witness :
  in_range uint32_t 851968 /\
  raw_data (op_div fixed_u32_16 (Fixed 851968) (FixedArg (Fixed 0))) = 4294967295.
Proof.
  assert (Ha : in_range (T fixed_u32_16) (raw_data (@Fixed fixed_u32_16 851968)))
    by solve_range.
  split; [exact Ha |].
  exact (safe_division_by_zero fixed_u32_16 (Fixed 851968) eq_refl Ha).
Defined.

(** ** Integer operands of the bitwise operators *)

Lemma cast_mod_low (A : int_type) (z s : Z) :
  0 <= s <= bits A -> cast A z mod 2 ^ s = z mod 2 ^ s.
Proof.
  intros Hs. destruct (cast_diff A z) as [k ->].
  replace (2 ^ bits A) with (2 ^ (bits A - s) * 2 ^ s)
    by (rewrite <- Z.pow_add_r by lia; f_equal; lia).
  rewrite Z.mul_assoc. apply Z.mod_add, Z.pow_nonzero; lia.
Qed.

(** X22.  An integer operand of [&] is converted by the constructor, so it
    masks the integer part only: for a scale that is at most the width of
    [T] and a defined shift count for it, a value built from an integer
    has no fraction bits, and neither has [x & k], whatever [x] is. *)
Theorem integer_mask_clears_fraction
    (c : config) (x : fixed c) (K : int_type) (k : Z) :
  scale_bits c <= bits (T c) -> shift_defined (T c) (scale_bits c) ->
  raw_data (from_integer c k) mod 2 ^ scale_bits c = 0 /\
  raw_data (op_and c x (IntArg K k)) mod 2 ^ scale_bits c = 0.
Proof.
  intros Hle Hdef. pose proof (shift_defined_nonneg _ _ Hdef) as Hs0.
  assert (Hs : 0 <= scale_bits c <= bits (T c)) by lia.
  pose proof (pow2_pos (scale_bits c) ltac:(lia)) as Hp.
  assert (Hk : raw_data (from_integer c k) mod 2 ^ scale_bits c = 0).
  { rewrite from_integer_raw, cast_mod_low by lia. apply Z.mod_mul. lia. }
  split; [exact Hk |].
  unfold op_and, and_assign, to_fixed. cbn [raw_data].
  rewrite cast_mod_low, land_mod_pow2, Hk by lia. apply Z.land_0_r.
Qed.

Lemma integer_mask_clears_fraction_witness :
  shift_defined uint32_t (scale_bits fixed_u32_16) /\
  raw_data (op_and fixed_u32_16 (Fixed 229375) (IntArg int32_t 3))
    mod 2 ^ scale_bits fixed_u32_16 = 0.
Proof.
  assert (Hs : scale_bits fixed_u32_16 <= bits (T fixed_u32_16)) by solve_range.
  assert (Hd : shift_defined (T fixed_u32_16) (scale_bits fixed_u32_16))
    by solve_range.
  split; [exact Hd |].
  exact (proj2 (integer_mask_clears_fraction fixed_u32_16 (Fixed 229375)
                  int32_t 3 Hs Hd)).
Defined.

(** ** Exclusive or (lines 96, 243) *)

Lemma lxor_mod_pow2 (x y n : Z) :
  0 <= n -> Z.lxor x y mod 2 ^ n = Z.lxor (x mod 2 ^ n) (y mod 2 ^ n).
Proof.
  intros Hn. rewrite <- !Z.land_ones by exact Hn.
  apply Z.bits_inj'. intros i Hi. rewrite !Z.land_spec, !Z.lxor_spec, !Z.land_spec.
  destruct (Z.testbit x i), (Z.testbit y i), (Z.testbit (Z.ones n) i); reflexivity.
Qed.

Lemma cast_lxor_l (A : int_type) (x y : Z) :
  cast A (Z.lxor (cast A x) y) = cast A (Z.lxor x y).
Proof.
  pose proof (bits_pos A) as Hb. apply cast_congr.
  rewrite !lxor_mod_pow2, !cast_mod_eq by lia. reflexivity.
Qed.

(** X23.  Exclusive or with the same value twice gives the starting value
    back, and [x ^ x] is the default (zero) value. *)
Theorem xor_round_trip (c : config) (a b : fixed c) :
  in_range (T c) (raw_data a) ->
  op_xor c (op_xor c a (FixedArg b)) (FixedArg b) = a /\
  op_xor c a (FixedArg a) = fixed_default c.
Proof.
  intros Ha. split; apply fixed_eq;
    unfold op_xor, xor_assign, to_fixed, fixed_default; cbn [raw_data].
  - rewrite cast_lxor_l, Z.lxor_assoc, Z.lxor_nilpotent, Z.lxor_0_r.
    apply cast_in_range, Ha.
  - rewrite Z.lxor_nilpotent. apply cast_zero.
Qed.

Lemma xor_round_trip_witness :
  in_range int32_t (-98304) /\
  op_xor fixed_i32_16 (op_xor fixed_i32_16 (Fixed (-98304)) (FixedArg (Fixed 21845)))
    (FixedArg (Fixed 21845)) = Fixed (-98304).
Proof.
  assert (Ha : in_range (T fixed_i32_16) (raw_data (@Fixed fixed_i32_16 (-98304))))
    by solve_range.
  split; [exact Ha |].
  exact (proj1 (xor_round_trip fixed_i32_16 (Fixed (-98304)) (Fixed 21845) Ha)).
Defined.
